(** * nbdime webapp: diff models and chunking (diffmodel.ts)

    A shallow embedding of [src/nbdime/webapp/src/diffmodel.ts]: the [Chunk]
    class, [StringDiffModel] with its chunk builder [getChunks], the factories
    [createDirectDiffModel] and [createPatchDiffModel], and [OutputDiffModel]
    with [innerMimeType] and [stringify].

    JavaScript numbers that hold line numbers, columns and offsets are integers
    far below 2^53, so they are modelled by [Z] (and string offsets by [nat]).
    A [throw] is modelled by the [Throw] constructor of [result]. *)

From Stdlib Require Import ZArith List String Ascii Bool Lia Sorted.
From Stdlib Require Import DecimalString.
Import ListNotations.

#[local] Open Scope string_scope.
#[local] Open Scope list_scope.
#[local] Open Scope Z_scope.

(** ** Exceptions *)

Inductive result (A : Type) : Type :=
| Ok (a : A)
| Throw (msg : string).

Arguments Ok {A} a.
Arguments Throw {A} msg.

Definition bind {A B : Type} (r : result A) (k : A -> result B) : result B :=
  match r with
  | Ok a => k a
  | Throw msg => Throw msg
  end.

Notation "x <- r ;; k" := (bind r (fun x => k))
  (at level 61, r at next level, right associativity).

Definition succeeds {A : Type} (r : result A) : bool :=
  match r with Ok _ => true | Throw _ => false end.

Definition isNone {A : Type} (o : option A) : bool :=
  match o with None => true | Some _ => false end.

(** ** JavaScript values

    The values that reach the factories and the output model are JSON data,
    [undefined] (the result of reading a missing property), and the values
    of the runtime that are no data: the built-in functions and objects a
    property access finds on the prototype chain, named by [JNative]. *)

#[local] Unset Elimination Schemes.
Inductive JValue : Type :=
| JNull
| JUndefined
| JBool (b : bool)
| JNum (z : Z)
| JStr (s : string)
| JArr (items : list JValue)
| JObj (fields : list (string * JValue))
| JNative (name : string).
#[local] Set Elimination Schemes.

(** [!v] *)
Definition falsy (v : JValue) : bool :=
  match v with
  | JNull | JUndefined => true
  | JBool b => negb b
  | JNum z => z =? 0
  | JStr s => (String.length s =? 0)%nat
  | JArr _ | JObj _ | JNative _ => false
  end.

(** [v === null] *)
Definition isNull (v : JValue) : bool :=
  match v with JNull => true | _ => false end.

Fixpoint lookupField (fields : list (string * JValue)) (key : string) : JValue :=
  match fields with
  | [] => JUndefined
  | (k, v) :: rest => if String.eqb k key then v else lookupField rest key
  end.

(** The array index a property key denotes, if any: the key is the decimal
    numeral of an index below [n]. *)
Definition indexKey (n : nat) (key : string) : option nat :=
  find (fun i => String.eqb (NilZero.string_of_uint (Nat.to_uint i)) key)
       (seq 0 n).

(** [fields] has an own property [key]. *)
Definition hasKey (fields : list (string * JValue)) (key : string) : bool :=
  existsb (fun kv => String.eqb (fst kv) key) fields.

(** ** Positions, ranges and chunks *)

(** [CodeMirror.Pos(line, ch)] *)
Record Pos : Type := mkPos { line : Z; ch : Z }.

(** [DiffRangeRaw(from, to)]: absolute offsets into a string. *)
Record DiffRangeRaw : Type := mkRaw { rawFrom : nat; rawTo : nat }.

(** [DiffRangePos]: a range in line/column coordinates with its two chunking
    hints. *)
Record DiffRangePos : Type := mkRange {
  from : Pos;
  to : Pos;
  chunkStartLine : bool;
  endsOnNewline : bool
}.

Record Chunk : Type := mkChunk {
  editFrom : Z;
  editTo : Z;
  origFrom : Z;
  origTo : Z
}.

Definition inEdit (c : Chunk) (l : Z) : bool :=
  (editFrom c <=? l) && (l <=? editTo c).

Definition inOrig (c : Chunk) (l : Z) : bool :=
  (origFrom c <=? l) && (l <=? origTo c).

(** ** Range translator *)

Definition newline : ascii := "010"%char.

(** Line and column of offset [off] in [text], counted from [(l, c)]. *)
Fixpoint locate (text : string) (off : nat) (l c : Z) : Pos :=
  match off, text with
  | S off', String a rest =>
      if Ascii.eqb a newline then locate rest off' (l + 1) 0
      else locate rest off' l (c + 1)
  | _, _ => mkPos l c
  end.

Definition translate (text : string) (r : DiffRangeRaw) : DiffRangePos :=
  let f := locate text (rawFrom r) 0 0 in
  let t := locate text (rawTo r) 0 0 in
  let endsNl :=
    match rawTo r with
    | O => false
    | S p => match String.get p text with
             | Some a => Ascii.eqb a newline
             | None => false
             end
    end in
  mkRange f t (ch f =? 0) endsNl.

Definition wellFormedRaw (text : string) (r : DiffRangeRaw) : bool :=
  (rawFrom r <=? rawTo r)%nat && (rawTo r <=? String.length text)%nat.

(** Modelled from the spec: [raw2Pos] of diffutil.ts is not part of the
    sources at hand.  Section 4.1: for each raw range the line and column of
    [from] and [to] are located by scanning line boundaries; [endsOnNewline]
    holds iff the character immediately preceding [to] is a line terminator;
    [chunkStartLine] holds iff the column of [from] is 0; the translation
    fails only if [from > to] or an offset exceeds the length of the string. *)
Fixpoint raw2Pos (raws : list DiffRangeRaw) (text : string)
  : result (list DiffRangePos) :=
  match raws with
  | [] => Ok []
  | r :: rest =>
      if wellFormedRaw text r then
        ps <- raw2Pos rest text ;;
        Ok (translate text r :: ps)
      else Throw "malformed range"
  end.

(** ** The chunk builder *)

(** The loop variables of [getChunks] that live across iterations.  The
    cursors [ia] and [id] are carried as the suffixes of [additions] and
    [deletions] not consumed yet. *)
Record ChunkState : Type := mkState {
  chunks : list Chunk;
  editOffset : Z;
  current : option Chunk
}.

Definition initialState : ChunkState := mkState [] 0 None.

(** "Figure out which element to take next" when both cursors are in range. *)
Definition additionNext (ra rd : DiffRangePos) (editOffset : Z) : bool :=
  (line (from ra) <? line (from rd) - editOffset)
  || ((line (from ra) =? line (from rd) - editOffset)
      && (ch (from ra) <=? ch (from rd))).

Definition linediffOf (range : DiffRangePos) : Z :=
  line (to range) - line (from range)
  + (if endsOnNewline range then 1 else 0).

Definition startOffsetOf (range : DiffRangePos) : Z :=
  if chunkStartLine range then 0 else 1.

Definition endOffsetOf (range : DiffRangePos) : Z :=
  let firstLineNew := (ch (from range) =? 0) && (0 <? linediffOf range) in
  if chunkStartLine range && endsOnNewline range && firstLineNew
  then 0 else 1.

(** The chunk opened for [range] when no chunk is open. *)
Definition openChunk (isAddition : bool) (range : DiffRangePos)
    (editOffset : Z) : Chunk :=
  let linediff := linediffOf range in
  let startOffset := startOffsetOf range in
  let endOffset := endOffsetOf range in
  if isAddition then
    let startOrig := line (from range) in
    let startEdit := startOrig + editOffset in
    mkChunk (startEdit + startOffset) (startEdit + endOffset)
            (startOrig + startOffset) (startOrig + endOffset + linediff)
  else
    let startEdit := line (from range) in
    let startOrig := startEdit - editOffset in
    mkChunk (startEdit + startOffset) (startEdit + endOffset + linediff)
            (startOrig + startOffset) (startOrig + endOffset).

(** The part of the loop body after the next range has been chosen. *)
Definition consume (isAddition : bool) (range : DiffRangePos)
    (st : ChunkState) : ChunkState :=
  let linediff := linediffOf range in
  let '(chunks1, current1) :=
    match current st with
    | Some cur =>
        if isAddition then
          if inOrig cur (line (from range)) then
            (chunks st,
             Some (mkChunk (editFrom cur) (editTo cur) (origFrom cur)
                           (Z.max (origTo cur) (line (to range) + 1))))
          else (chunks st ++ [cur], None)
        else
          if inEdit cur (line (from range)) then
            (chunks st,
             Some (mkChunk (editFrom cur)
                           (Z.max (editTo cur) (line (to range) + 1))
                           (origFrom cur) (origTo cur)))
          else (chunks st ++ [cur], None)
    | None => (chunks st, None)
    end in
  let current2 :=
    match current1 with
    | Some cur => cur
    | None => openChunk isAddition range (editOffset st)
    end in
  mkState chunks1
          (editOffset st + (if isAddition then - linediff else linediff))
          (Some current2).

(** Both streams exhausted: push the open chunk, if any, and stop. *)
Definition finish (st : ChunkState) : list Chunk :=
  match current st with
  | Some cur => chunks st ++ [cur]
  | None => chunks st
  end.

(** The [for (;;)] loop.  Every iteration consumes one range, so the loop is
    a recursion on the two suffixes. *)
Fixpoint sweep (additions : list DiffRangePos)
  : ChunkState -> list DiffRangePos -> list Chunk :=
  fix sweepDeletions (st : ChunkState) (deletions : list DiffRangePos)
    : list Chunk :=
    match additions with
    | [] =>
        match deletions with
        | [] => finish st
        | rd :: deletions' => sweepDeletions (consume false rd st) deletions'
        end
    | ra :: additions' =>
        match deletions with
        | [] => sweep additions' (consume true ra st) []
        | rd :: deletions' =>
            if additionNext ra rd (editOffset st)
            then sweep additions' (consume true ra st) deletions
            else sweepDeletions (consume false rd st) deletions'
        end
    end.

(** One iteration of the loop on the not yet consumed suffixes: the state
    after the chosen range is consumed, or [None] at the [break]. *)
Definition iteration (st : ChunkState) (additions deletions : list DiffRangePos)
  : option (ChunkState * list DiffRangePos * list DiffRangePos) :=
  match additions, deletions with
  | ra :: additions', rd :: deletions' =>
      if additionNext ra rd (editOffset st)
      then Some (consume true ra st, additions', deletions)
      else Some (consume false rd st, additions, deletions')
  | ra :: additions', [] => Some (consume true ra st, additions', [])
  | [], rd :: deletions' => Some (consume false rd st, [], deletions')
  | [], [] => None
  end.

(** ** String diff models *)

Module StringDiffModel.

Record t : Type := mk {
  base : option string;
  remote : option string;
  mimetype : option string;
  additions : list DiffRangePos;
  deletions : list DiffRangePos;
  collapsible : bool;
  collapsibleHeader : option string;
  startCollapsed : option bool
}.

(** The constructor.  [console.assert] only logs and is left out; the
    fields [collapsibleHeader] and [startCollapsed] stay unset unless the
    model is collapsible. *)
Definition new (base remote : option string)
    (additions deletions : list DiffRangeRaw)
    (collapsible : option bool) (header : option string)
    (collapsed : option bool) : result t :=
  dels <- match base with
          | None => Ok []
          | Some b => raw2Pos deletions b
          end ;;
  adds <- match remote with
          | None => Ok []
          | Some r => raw2Pos additions r
          end ;;
  let isCollapsible :=
    match collapsible with Some true => true | _ => false end in
  Ok (mk base remote None adds dels isCollapsible
         (if isCollapsible
          then Some (match header with Some h => h | None => "" end)
          else None)
         (if isCollapsible then collapsed else None)).

Definition getChunks (m : t) : list Chunk :=
  sweep (additions m) initialState (deletions m).

(** [this.base == this.remote] *)
Definition unchanged (m : t) : bool :=
  match base m, remote m with
  | None, None => true
  | Some b, Some r => String.eqb b r
  | _, _ => false
  end.

Definition added (m : t) : bool :=
  match base m with None => true | Some _ => false end.

Definition deleted (m : t) : bool :=
  match remote m with None => true | Some _ => false end.

End StringDiffModel.

(** ** Collaborators

    patch.ts and the diff entries of diffutil.ts are outside the sources at
    hand: the development is parametric in them.  Following the interface
    given for them, [stringify] serializes a value to a string, [patch]
    applies diff entries to a value, [patchStringified] returns the patched
    string with the raw ranges of what was added and removed, and
    [getDiffKey] looks a key up in a list of diff entries, yielding the
    sub-diff stored at that key or nothing.

    The code also runs against the objects of the JavaScript runtime: a
    property read [obj[key]] and the test [key in obj] find the properties a
    value inherits from its prototype ([constructor], [toString], ... on
    every object) as well as its own.  [inherited obj key] is the property
    of that name the runtime provides for [obj], if there is one; it is
    consulted only where the value has no own property [key]. *)

Record PatchResult : Type := mkPatchResult {
  outRemote : string;
  outAdditions : list DiffRangeRaw;
  outDeletions : list DiffRangeRaw
}.

Class Collaborators (DiffEntry : Type) : Type := {
  stringify : JValue -> string;
  patch : JValue -> list DiffEntry -> JValue;
  patchStringified : JValue -> list DiffEntry -> PatchResult;
  getDiffKey : list DiffEntry -> string -> option (list DiffEntry);
  inherited : JValue -> string -> option JValue
}.

Section PropertyAccess.

Context {DiffEntry : Type} `{Collaborators DiffEntry}.

(** What a property access finds when the value has no own property of that
    name: the inherited one, or [undefined]. *)
Definition fromPrototype (obj : JValue) (key : string) : JValue :=
  match inherited obj key with
  | Some v => v
  | None => JUndefined
  end.

(** [obj[key]] for a value on which property access does not throw: the own
    properties of objects, the elements and the length of arrays and
    strings, and otherwise what the value inherits.  A property found
    nowhere reads as [undefined]. *)
Definition member (obj : JValue) (key : string) : JValue :=
  match obj with
  | JObj fields =>
      if hasKey fields key then lookupField fields key
      else fromPrototype obj key
  | JArr items =>
      if String.eqb key "length" then JNum (Z.of_nat (List.length items))
      else match indexKey (List.length items) key with
           | Some i => nth i items JUndefined
           | None => fromPrototype obj key
           end
  | JStr s =>
      if String.eqb key "length" then JNum (Z.of_nat (String.length s))
      else match indexKey (String.length s) key with
           | Some i => match String.get i s with
                       | Some c => JStr (String c EmptyString)
                       | None => JUndefined
                       end
           | None => fromPrototype obj key
           end
  | _ => fromPrototype obj key
  end.

(** [obj.key] where [obj] can be [null] or [undefined]: a TypeError. *)
Definition property (obj : JValue) (key : string) : result JValue :=
  match obj with
  | JNull | JUndefined => Throw "TypeError"
  | _ => Ok (member obj key)
  end.

(** [key in obj]: the own properties of an object, the indices and the
    length of an array, and the properties these and the built-in values
    inherit; a TypeError on a primitive value. *)
Definition inOperator (key : string) (obj : JValue) : result bool :=
  match obj with
  | JObj fields =>
      Ok (hasKey fields key || negb (isNone (inherited obj key)))
  | JArr items =>
      Ok (String.eqb key "length"
          || negb (isNone (indexKey (List.length items) key))
          || negb (isNone (inherited obj key)))
  | JNative _ => Ok (negb (isNone (inherited obj key)))
  | _ => Throw "TypeError"
  end.

End PropertyAccess.

(** [key.indexOf('.')], [key.slice(0, i)] and [key.slice(i + 1)] *)
Definition indexOfDot (key : string) : option nat := index 0 "." key.

Definition sliceTo (i : nat) (key : string) : string := substring 0 i key.

Definition sliceFrom (i : nat) (key : string) : string :=
  substring i (String.length key - i) key.

(** The local function [getMemberByPath] of [OutputDiffModel.stringify].  It
    is used at two types: on values with plain property access, and on diff
    entry lists with [getDiffKey] as accessor [f].  The recursive call is on a
    strictly shorter key; [fuel] bounds the depth. *)
Fixpoint getMemberByPathFuel {A : Type} (isFalsy : A -> bool)
    (get : A -> string -> A) (fuel : nat) (obj : A) (key : string) : A :=
  if isFalsy obj then obj
  else
    match indexOfDot key with
    | Some i =>
        match fuel with
        | O => obj
        | S fuel' =>
            getMemberByPathFuel isFalsy get fuel'
              (get obj (sliceTo i key)) (sliceFrom (S i) key)
        end
    | None => get obj key
    end.

Definition getMemberByPath {A : Type} (isFalsy : A -> bool)
    (get : A -> string -> A) (obj : A) (key : string) : A :=
  getMemberByPathFuel isFalsy get (String.length key) obj key.

(** [key ? ... : ...] for the optional argument [key]: an absent key and the
    empty string are both falsy. *)
Definition givenKey (key : option string) : option string :=
  match key with
  | Some k => if (String.length k =? 0)%nat then None else Some k
  | None => None
  end.

(** [t === s] for a string literal [s] *)
Definition isString (t : JValue) (s : string) : bool :=
  match t with JStr s' => String.eqb s' s | _ => false end.

Section Factories.

Context {DiffEntry : Type} `{Collaborators DiffEntry}.

(** [(typeof v == 'string') ? v : stringify(v)] *)
Definition asString (v : JValue) : string :=
  match v with JStr s => s | _ => stringify v end.

Definition createPatchDiffModel (base : JValue) (diff : list DiffEntry)
  : result StringDiffModel.t :=
  let base_str := asString base in
  let out := patchStringified base diff in
  StringDiffModel.new (Some base_str) (Some (outRemote out))
    (outAdditions out) (outDeletions out) None None None.

Definition createDirectDiffModel (base remote : JValue)
  : result StringDiffModel.t :=
  let base_str := asString base in
  let remote_str := asString remote in
  if isNull base then
    StringDiffModel.new None (Some remote_str)
      [mkRaw 0 (String.length remote_str)] [] None None None
  else if isNull remote then
    StringDiffModel.new (Some base_str) None
      [] [mkRaw 0 (String.length base_str)] None None None
  else if negb (String.eqb remote_str base_str) then
    Throw ("Invalid arguments to createDirectDiffModel()."
           ++ "Either base or remote should be null, or they should be equal!")
  else
    StringDiffModel.new (Some base_str) (Some remote_str) [] []
      None None None.

End Factories.

(** ** Output diff models *)

Module OutputDiffModel.

Record t (DiffEntry : Type) : Type := mk {
  base : JValue;
  remote : JValue;
  diff : option (list DiffEntry);
  collapsible : bool;
  collapsibleHeader : option string;
  startCollapsed : option bool
}.

Arguments mk {DiffEntry}.
Arguments base {DiffEntry}.
Arguments remote {DiffEntry}.
Arguments diff {DiffEntry}.
Arguments collapsible {DiffEntry}.
Arguments collapsibleHeader {DiffEntry}.
Arguments startCollapsed {DiffEntry}.

Section Methods.

Context {DiffEntry : Type} `{Collaborators DiffEntry}.

(** The constructor.  An array of diff entries is truthy, also when it is
    empty; a missing [diff] is [None]. *)
Definition new (base remote : JValue) (diff : option (list DiffEntry))
    (collapsible : option bool) (header : option string)
    (collapsed : option bool) : t DiffEntry :=
  let remote' :=
    match diff with
    | Some d => if falsy remote then patch base d else remote
    | None => remote
    end in
  let isCollapsible :=
    match collapsible with Some true => true | _ => false end in
  mk base remote' diff isCollapsible
     (if isCollapsible
      then Some (match header with Some h => h | None => "" end)
      else None)
     (if isCollapsible then collapsed else None).

Definition unchanged (m : t DiffEntry) : bool := isNone (diff m).

Definition added (m : t DiffEntry) : bool := isNull (base m).

Definition deleted (m : t DiffEntry) : bool := isNull (remote m).

(** [this.base ? this.base.output_type : this.remote.output_type] *)
Definition outputType (m : t DiffEntry) : result JValue :=
  if falsy (base m) then property (remote m) "output_type"
  else property (base m) "output_type".

Definition innerMimeType (m : t DiffEntry) (key : string)
  : result string :=
  t <- outputType m ;;
  if isString t "stream" && String.eqb key "text" then
    Ok "text/plain"
  else if (isString t "execute_result" || isString t "display_data")
          && prefix "data." key then
    Ok (sliceFrom (String.length "data.") key)
  else Throw ("Unknown MIME type for key: " ++ key)%string.

(** [getMemberByPath(this.diff, key, getDiffKey)] *)
Definition diffAtPath (d : list DiffEntry) (key : string)
  : option (list DiffEntry) :=
  getMemberByPath isNone
    (fun obj k => match obj with
                  | Some entries => getDiffKey entries k
                  | None => None
                  end)
    (Some d) key.

(** [getMemberByPath(obj, key)] *)
Definition valueAtPath (obj : JValue) (key : string) : JValue :=
  getMemberByPath falsy member obj key.

Definition stringify (m : t DiffEntry) (key : option string)
  : result StringDiffModel.t :=
  let base' :=
    match givenKey key with
    | Some k => valueAtPath (base m) k
    | None => base m
    end in
  let remote' :=
    match givenKey key with
    | Some k => valueAtPath (remote m) k
    | None => remote m
    end in
  let diff' :=
    match diff m, givenKey key with
    | Some d, Some k => diffAtPath d k
    | _, _ => diff m
    end in
  model <-
    match diff' with
    | None => createDirectDiffModel base' remote'
    | Some d =>
        if unchanged m || added m || deleted m || isNone diff'
        then createDirectDiffModel base' remote'
        else createPatchDiffModel base' d
    end ;;
  mimetype <-
    match givenKey key with
    | Some k => innerMimeType m k
    | None => Ok "application/json"
    end ;;
  Ok (StringDiffModel.mk
        (StringDiffModel.base model) (StringDiffModel.remote model)
        (Some mimetype)
        (StringDiffModel.additions model)
        (StringDiffModel.deletions model)
        (collapsible m) (collapsibleHeader m) (startCollapsed m)).

End Methods.

End OutputDiffModel.

(** ** A concrete set of collaborators

    Closed examples need the collaborators instantiated.  The diff entries and
    their key lookup follow the description of the interface; the other three
    functions are small reference versions that serve as inputs of the
    examples.  The theorems are stated for every instance. *)

Module Sample.

(** Modelled from the spec: the diff entries of diffutil.ts, which are not
    part of the sources at hand.  Section 6 and 4.4: tagged variants
    add, remove, replace, add-range, remove-range and patch, the last one
    recursive and stored at a key. *)
#[local] Unset Elimination Schemes.
Inductive DiffEntry : Type :=
| DAdd (key : string) (value : JValue)
| DRemove (key : string)
| DReplace (key : string) (value : JValue)
| DAddRange (index : nat) (text : string)
| DRemoveRange (index : nat) (length : nat)
| DPatch (key : string) (diff : list DiffEntry).
#[local] Set Elimination Schemes.

(** Modelled from the spec: [getDiffKey] of diffutil.ts.  Section 4.4 and
    9: a key lookup over the entries that understands their variant and
    yields the sub-diff at that key, with an explicit "not found" result. *)
Fixpoint getDiffKey (entries : list DiffEntry) (key : string)
  : option (list DiffEntry) :=
  match entries with
  | [] => None
  | DPatch k sub :: rest =>
      if String.eqb k key then Some sub else getDiffKey rest key
  | _ :: rest => getDiffKey rest key
  end.

(** A compact JSON rendering. *)
Fixpoint render (v : JValue) : string :=
  match v with
  | JNull => "null"
  | JUndefined => "undefined"
  | JBool true => "true"
  | JBool false => "false"
  | JNum z => NilZero.string_of_int (Z.to_int z)
  | JStr s => ("'" ++ s ++ "'")%string
  | JArr items =>
      ("[" ++ (fix renderItems (l : list JValue) : string :=
                 match l with
                 | [] => ""
                 | x :: l' => render x ++ "," ++ renderItems l'
                 end) items ++ "]")%string
  | JObj fields =>
      ("{" ++ (fix renderFields (l : list (string * JValue)) : string :=
                 match l with
                 | [] => ""
                 | (k, x) :: l' =>
                     "'" ++ k ++ "':" ++ render x ++ "," ++ renderFields l'
                 end) fields ++ "}")%string
  | JNative f => ("[native " ++ f ++ "]")%string
  end.

(** Applies the range entries of a diff to a string; [taken] characters of
    [base] are consumed and [written] characters of the result produced. *)
Fixpoint patchText (diff : list DiffEntry) (base : string)
    (taken written : nat) : PatchResult :=
  match diff with
  | [] =>
      mkPatchResult (sliceFrom taken base) [] []
  | DAddRange i text :: rest =>
      let out := patchText rest base (Nat.max taken i)
                   (written + (i - taken) + String.length text) in
      mkPatchResult
        (substring taken (i - taken) base ++ text ++ outRemote out)%string
        (mkRaw (written + (i - taken))
               (written + (i - taken) + String.length text)
           :: outAdditions out)
        (outDeletions out)
  | DRemoveRange i n :: rest =>
      let out := patchText rest base (Nat.max taken (i + n))
                   (written + (i - taken)) in
      mkPatchResult
        (substring taken (i - taken) base ++ outRemote out)%string
        (outAdditions out)
        (mkRaw i (i + n) :: outDeletions out)
  | _ :: rest => patchText rest base taken written
  end.

Fixpoint setField (fields : list (string * JValue)) (key : string)
    (v : JValue) : list (string * JValue) :=
  match fields with
  | [] => [(key, v)]
  | (k, x) :: rest =>
      if String.eqb k key then (k, v) :: rest
      else (k, x) :: setField rest key v
  end.

Definition removeField (fields : list (string * JValue)) (key : string)
  : list (string * JValue) :=
  filter (fun kv => negb (String.eqb (fst kv) key)) fields.

(** Applies the keyed entries of a diff to an object; a patch of a string
    field applies the range entries to its text. *)
Fixpoint applyEntry (e : DiffEntry) (v : JValue) : JValue :=
  match v with
  | JObj fields =>
      match e with
      | DAdd k x | DReplace k x => JObj (setField fields k x)
      | DRemove k => JObj (removeField fields k)
      | DPatch k sub =>
          JObj (setField fields k
                  match lookupField fields k with
                  | JStr text => JStr (outRemote (patchText sub text 0 0))
                  | x0 =>
                      (fix applyAll (es : list DiffEntry) (x : JValue)
                         : JValue :=
                         match es with
                         | [] => x
                         | e' :: es' => applyAll es' (applyEntry e' x)
                         end) sub x0
                  end)
      | DAddRange _ _ | DRemoveRange _ _ => v
      end
  | _ => v
  end.

Definition patchValue (base : JValue) (diff : list DiffEntry) : JValue :=
  fold_left (fun v e => applyEntry e v) diff base.

Definition patchStringifiedValue (base : JValue) (diff : list DiffEntry)
  : PatchResult :=
  patchText diff (match base with JStr s => s | _ => render base end)
    0%nat 0%nat.

(** The names every object inherits from [Object.prototype]. *)
Definition objectPrototype : list string :=
  ["constructor"; "toString"; "toLocaleString"; "valueOf"; "hasOwnProperty";
   "isPrototypeOf"; "propertyIsEnumerable"; "__proto__"].

Definition isIn (key : string) (names : list string) : bool :=
  existsb (String.eqb key) names.

(** The inherited properties of the examples: the constructor of an object
    is the function [Object], those of arrays and functions are [Array] and
    [Function]; the other names of [Object.prototype] are built-in values
    named after the property; a constructor has a [name]. *)
Definition prototypeProperty (obj : JValue) (key : string) : option JValue :=
  match obj with
  | JObj _ =>
      if String.eqb key "constructor" then Some (JNative "Object")
      else if isIn key objectPrototype
           then Some (JNative ("Object.prototype." ++ key))
           else None
  | JArr _ =>
      if String.eqb key "constructor" then Some (JNative "Array")
      else if isIn key objectPrototype
           then Some (JNative ("Object.prototype." ++ key))
           else None
  | JNative f =>
      if String.eqb key "constructor" then Some (JNative "Function")
      else if String.eqb key "name"
              && isIn f ["Object"; "Array"; "Function"]
           then Some (JStr f)
           else if isIn key objectPrototype
                then Some (JNative ("Object.prototype." ++ key))
                else None
  | _ => None
  end.

#[global] Instance collaborators : Collaborators DiffEntry := {
  stringify := render;
  patch := patchValue;
  patchStringified := patchStringifiedValue;
  getDiffKey := getDiffKey;
  inherited := prototypeProperty
}.

End Sample.

(** ** Vocabulary of the statements *)

(** [p] is not after [q] in (line, column) order. *)
Definition posLe (p q : Pos) : bool :=
  (line p <? line q) || ((line p =? line q) && (ch p <=? ch q)).

(** A list of ranges sorted by [from] and non-overlapping: every range ends
    no earlier than it starts, and the next one starts no earlier than it
    ends. *)
Fixpoint rangesSorted (l : list DiffRangePos) : bool :=
  match l with
  | [] => true
  | r :: rest =>
      posLe (from r) (to r)
      && match rest with
         | [] => true
         | r' :: _ => posLe (to r) (from r')
         end
      && rangesSorted rest
  end.

(** The same at the granularity of lines, which is what the chunk builder
    works with: a range covers the lines from [from.line] on, [linediff] of
    them being complete, and the next range starts no earlier than the line
    on which it ends, a line later when it ends on a newline. *)
Fixpoint rangesLineSorted (l : list DiffRangePos) : bool :=
  match l with
  | [] => true
  | r :: rest =>
      (line (from r) <=? line (to r))
      && match rest with
         | [] => true
         | r' :: _ => line (from r) + linediffOf r <=? line (from r')
         end
      && rangesLineSorted rest
  end.

(** Consecutive chunks do not share a line, in the weakest reading: the end
    of a span is allowed to touch the start of the next one. *)
Fixpoint chunksSeparated (cs : list Chunk) : bool :=
  match cs with
  | [] => true
  | c :: rest =>
      match rest with
      | [] => true
      | c' :: _ => (editTo c <=? editFrom c') && (origTo c <=? origFrom c')
      end
      && chunksSeparated rest
  end.

(** The span [lo .. hi] of a chunk contains the lines of [r]. *)
Definition rangeWithin (lo hi : Z) (r : DiffRangePos) : bool :=
  (lo <=? line (from r)) && (line (to r) <=? hi).

Definition chunkLe (c c' : Chunk) : Prop :=
  editFrom c <= editFrom c' /\ origFrom c <= origFrom c'.

(** Ascending order of the chunks on both sides. *)
Definition chunksAscending (cs : list Chunk) : Prop :=
  StronglySorted chunkLe cs.

Definition validChunk (c : Chunk) : Prop :=
  editFrom c <= editTo c /\ origFrom c <= origTo c.

(** The test of [consume] for a range that meets the open chunk, and the
    chunk it is extended to. *)
Definition overlapsCurrent (isAddition : bool) (cur : Chunk)
    (range : DiffRangePos) : bool :=
  if isAddition then inOrig cur (line (from range))
  else inEdit cur (line (from range)).

Definition extendCurrent (isAddition : bool) (cur : Chunk)
    (range : DiffRangePos) : Chunk :=
  if isAddition then
    mkChunk (editFrom cur) (editTo cur) (origFrom cur)
            (Z.max (origTo cur) (line (to range) + 1))
  else
    mkChunk (editFrom cur) (Z.max (editTo cur) (line (to range) + 1))
            (origFrom cur) (origTo cur).

(** [c'] is [c] with its spans possibly extended at the end. *)
Definition grows (c c' : Chunk) : Prop :=
  editFrom c' = editFrom c /\ origFrom c' = origFrom c
  /\ editTo c <= editTo c' /\ origTo c <= origTo c'.

(** The span of [c] on the side the chunk builder tracks the range on (the
    orig side for an addition, the edit side for a deletion) reaches from the
    first chunk line of the range to past its last line. *)
Definition covers (isAddition : bool) (c : Chunk) (r : DiffRangePos) : Prop :=
  if isAddition
  then origFrom c <= line (from r) + startOffsetOf r /\ line (to r) < origTo c
  else editFrom c <= line (from r) + startOffsetOf r /\ line (to r) < editTo c.

(** The bounds the open chunk keeps with respect to the next ranges. *)
Definition headBound (cur : Chunk) (off : Z) (a d : list DiffRangePos) : Prop :=
  (forall ra a', a = ra :: a' ->
     origFrom cur <= line (from ra) /\ editFrom cur <= line (from ra) + off)
  /\ (forall rd d', d = rd :: d' ->
       editFrom cur <= line (from rd)
       /\ origFrom cur <= line (from rd) - off).

(** The invariant of the loop behind the ascending order of the chunks. *)
Definition orderInvariant (st : ChunkState) (a d : list DiffRangePos) : Prop :=
  rangesLineSorted a = true /\ rangesLineSorted d = true
  /\ forallb chunkStartLine a = true /\ forallb chunkStartLine d = true
  /\ match current st with
     | None => chunks st = []
     | Some cur =>
         chunksAscending (chunks st)
         /\ Forall (fun c => chunkLe c cur) (chunks st)
         /\ Forall validChunk (chunks st) /\ validChunk cur
         /\ headBound cur (editOffset st) a d
     end.

(** The invariant behind the coverage of a range [r] of kind [isAddition]:
    it is still to be consumed, or a pushed chunk covers it, or the open
    chunk does. *)
Definition coverInvariant (isAddition : bool) (r : DiffRangePos)
    (st : ChunkState) (a d : list DiffRangePos) : Prop :=
  In r (if isAddition then a else d)
  \/ (exists c, In c (chunks st) /\ covers isAddition c r)
  \/ (exists cur, current st = Some cur /\ covers isAddition cur r).

(** The sub-values and the factory [stringify] dispatches to, before the
    mimetype and the collapsing hints are assigned. *)
Definition factoryModel {DiffEntry : Type} `{Collaborators DiffEntry}
    (m : OutputDiffModel.t DiffEntry) (key : option string)
  : result StringDiffModel.t :=
  let base' :=
    match givenKey key with
    | Some k => OutputDiffModel.valueAtPath (OutputDiffModel.base m) k
    | None => OutputDiffModel.base m
    end in
  let remote' :=
    match givenKey key with
    | Some k => OutputDiffModel.valueAtPath (OutputDiffModel.remote m) k
    | None => OutputDiffModel.remote m
    end in
  match OutputDiffModel.diff m, givenKey key with
  | Some d, Some k =>
      match OutputDiffModel.diffAtPath d k with
      | Some sub =>
          if OutputDiffModel.added m || OutputDiffModel.deleted m
          then createDirectDiffModel base' remote'
          else createPatchDiffModel base' sub
      | None => createDirectDiffModel base' remote'
      end
  | Some d, None =>
      if OutputDiffModel.added m || OutputDiffModel.deleted m
      then createDirectDiffModel base' remote'
      else createPatchDiffModel base' d
  | None, _ => createDirectDiffModel base' remote'
  end.

(** The model [stringify] returns for [model] and [mimetype]. *)
Definition withHints {DiffEntry : Type} (m : OutputDiffModel.t DiffEntry)
    (model : StringDiffModel.t) (mimetype : string) : StringDiffModel.t :=
  StringDiffModel.mk
    (StringDiffModel.base model) (StringDiffModel.remote model)
    (Some mimetype)
    (StringDiffModel.additions model) (StringDiffModel.deletions model)
    (OutputDiffModel.collapsible m) (OutputDiffModel.collapsibleHeader m)
    (OutputDiffModel.startCollapsed m).

(** The keys [innerMimeType] knows for an output of type [t]. *)
Definition recognizedKey (t : JValue) (k : string) : bool :=
  (isString t "stream" && String.eqb k "text")
  || ((isString t "execute_result" || isString t "display_data")
      && prefix "data." k).

(** The path lookup over the diff entries of [m] yields nothing at [k]. *)
Definition noDiffAtPath {DiffEntry : Type} `{Collaborators DiffEntry}
    (m : OutputDiffModel.t DiffEntry) (k : string) : bool :=
  match OutputDiffModel.diff m with
  | Some d => isNone (OutputDiffModel.diffAtPath d k)
  | None => true
  end.

(** The three models [createDirectDiffModel] builds. *)
Definition additionModel (remote_str : string) : StringDiffModel.t :=
  StringDiffModel.mk None (Some remote_str) None
    [translate remote_str (mkRaw 0 (String.length remote_str))] []
    false None None.

Definition deletionModel (base_str : string) : StringDiffModel.t :=
  StringDiffModel.mk (Some base_str) None None
    [] [translate base_str (mkRaw 0 (String.length base_str))]
    false None None.

Definition identityModel (base_str remote_str : string) : StringDiffModel.t :=
  StringDiffModel.mk (Some base_str) (Some remote_str) None [] []
    false None None.

(** ** Inputs of the examples *)

Definition helloWorld : string := "hello" ++ String newline "world".

Definition lineRange (l1 c1 l2 c2 : Z) : DiffRangePos :=
  mkRange (mkPos l1 c1) (mkPos l2 c2) true false.

(** Base [x / b / y] against remote [(empty) / Zb / W]: the first and the
    third line of the base lose their character, the second and the third
    line of the remote gain one. *)
Definition overlapBase : string :=
  "x" ++ String newline ("b" ++ String newline "y").

Definition overlapRemote : string :=
  String newline ("Zb" ++ String newline "W").

Definition overlapModel : StringDiffModel.t :=
  StringDiffModel.mk (Some overlapBase) (Some overlapRemote) None
    [lineRange 1 0 1 1; lineRange 2 0 2 1]
    [lineRange 0 0 0 1; lineRange 2 0 2 1]
    false None None.

(** Base [p / q / r / stu / vw] against remote
    [AAA / BBBBBp / q / r / stXu / w]: a line and a half are added at the
    start, an [X] is added on the fifth line of the remote, and the first
    character of the fifth line of the base is removed.  Once the first
    addition is consumed the remote is one line ahead of the base. *)
Definition shiftedBase : string :=
  "p" ++ String newline ("q" ++ String newline ("r" ++
    String newline ("stu" ++ String newline "vw"))).

Definition shiftedRemote : string :=
  "AAA" ++ String newline ("BBBBBp" ++ String newline ("q" ++
    String newline ("r" ++ String newline ("stXu" ++ String newline "w")))).

Definition shiftedStart : DiffRangePos :=
  mkRange (mkPos 0 0) (mkPos 1 5) true false.

Definition shiftedAddition : DiffRangePos :=
  mkRange (mkPos 4 2) (mkPos 4 3) false false.

Definition shiftedDeletion : DiffRangePos :=
  mkRange (mkPos 4 0) (mkPos 4 1) true false.

(** The state of the loop after the first addition. *)
Definition shiftedReached : ChunkState := consume true shiftedStart initialState.

Definition shiftedModel : StringDiffModel.t :=
  StringDiffModel.mk (Some shiftedBase) (Some shiftedRemote) None
    [shiftedStart; shiftedAddition] [shiftedDeletion] false None None.

(** Base [abcd] against remote [ac]: the two deletions start in the middle
    of the line. *)
Definition midLineRange : DiffRangePos :=
  mkRange (mkPos 0 1) (mkPos 0 2) false false.

Definition midLineModel : StringDiffModel.t :=
  StringDiffModel.mk (Some "abcd") (Some "ac") None
    [] [midLineRange; mkRange (mkPos 0 3) (mkPos 0 4) false false]
    false None None.

(** Base of two empty lines against remote [a / b / c / / / x]: the first
    three additions are a complete line each, so each of them ends on a
    newline at the start of the line after it. *)
Definition newlineBase : string := String newline (String newline "").

Definition newlineRemote : string :=
  "a" ++ String newline ("b" ++ String newline ("c" ++
    String newline (String newline (String newline "x")))).

Definition newlineModel : StringDiffModel.t :=
  StringDiffModel.mk (Some newlineBase) (Some newlineRemote) None
    [mkRange (mkPos 0 0) (mkPos 1 0) true true;
     mkRange (mkPos 1 0) (mkPos 2 0) true true;
     mkRange (mkPos 2 0) (mkPos 3 0) true true;
     mkRange (mkPos 5 0) (mkPos 5 1) true false]
    [] false None None.

(** An unchanged text whose only character is recorded as removed and added
    again. *)
Definition rewrittenModel : StringDiffModel.t :=
  StringDiffModel.mk (Some "a") (Some "a") None
    [lineRange 0 0 0 1] [lineRange 0 0 0 1] false None None.

Definition annotatedOutput (text note : string) : JValue :=
  JObj [("output_type", JStr "execute_result");
        ("data", JObj [("text/plain", JStr text)]);
        ("metadata", JObj [("note", JStr note)])].

Definition resultOutput (text : string) : JValue := annotatedOutput text "x".

(** The diff between [resultOutput "a"] and [resultOutput "b"]. *)
Definition textDiff : list Sample.DiffEntry :=
  [Sample.DPatch "data"
     [Sample.DPatch "text/plain"
        [Sample.DRemoveRange 0 1; Sample.DAddRange 0 "b"]]].

Definition changedOutput : OutputDiffModel.t Sample.DiffEntry :=
  OutputDiffModel.new (resultOutput "a") (resultOutput "b") (Some textDiff)
    None None None.

(** Differing outputs handed over without their diff. *)
Definition undiffedOutput : OutputDiffModel.t Sample.DiffEntry :=
  OutputDiffModel.new (resultOutput "a") (resultOutput "b") None
    None None None.

(** Outputs that differ in their metadata only, with their diff. *)
Definition renotedOutput : OutputDiffModel.t Sample.DiffEntry :=
  OutputDiffModel.new (annotatedOutput "a" "x") (annotatedOutput "a" "y")
    (Some [Sample.DPatch "metadata" [Sample.DReplace "note" (JStr "y")]])
    None None None.

Definition sameOutput : OutputDiffModel.t Sample.DiffEntry :=
  OutputDiffModel.new (resultOutput "a") (resultOutput "a") None
    None None None.

(** ** [hasMimeType] *)

(** [this.base ? this.base.data : this.remote.data] *)
Definition outputData {DiffEntry : Type} `{Collaborators DiffEntry}
    (m : OutputDiffModel.t DiffEntry) : result JValue :=
  if falsy (OutputDiffModel.base m)
  then property (OutputDiffModel.remote m) "data"
  else property (OutputDiffModel.base m) "data".

(** [OutputDiffModel.hasMimeType]: the key of the data of [mimetype], or
    [null]. *)
Definition hasMimeType {DiffEntry : Type} `{Collaborators DiffEntry}
    (m : OutputDiffModel.t DiffEntry) (mimetype : string)
  : result (option string) :=
  t <- OutputDiffModel.outputType m ;;
  if isString t "stream"
     && String.eqb mimetype "application/vnd.jupyter.console-text" then
    Ok (Some "text")
  else if isString t "execute_result" || isString t "display_data" then
    data <- outputData m ;;
    present <- inOperator mimetype data ;;
    if present then Ok (Some ("data." ++ mimetype)%string) else Ok None
  else Ok None.

(** ** Further vocabulary *)

(** The key has no dot. *)
Definition noDot (key : string) : bool := isNone (indexOfDot key).

(** The loop on a model with ranges of one kind only. *)
Definition sweepOne (isAddition : bool) (l : list DiffRangePos)
    (st : ChunkState) : list Chunk :=
  if isAddition then sweep l st [] else sweep [] st l.

(** The span of a chunk on the side ranges of a kind are tracked on. *)
Definition spanFrom (isAddition : bool) (c : Chunk) : Z :=
  if isAddition then origFrom c else editFrom c.

Definition spanTo (isAddition : bool) (c : Chunk) : Z :=
  if isAddition then origTo c else editTo c.

(** [c1] ends before [c2] starts, on the side of a kind of ranges. *)
Definition sepBy (isAddition : bool) (c1 c2 : Chunk) : Prop :=
  spanTo isAddition c1 < spanFrom isAddition c2.

Definition sepEither (c1 c2 : Chunk) : Prop :=
  sepBy true c1 c2 \/ sepBy false c1 c2.

(** [c1] ends before [c2] starts on the side of a kind of ranges, and no
    later than [c2] starts on the other side. *)
Definition sepBoth (isAddition : bool) (c1 c2 : Chunk) : Prop :=
  sepBy isAddition c1 c2
  /\ (if isAddition then editTo c1 <= editFrom c2
      else origTo c1 <= origFrom c2).

(** The bound the open chunk of a model with additions only keeps on its
    edit side: taken back to the orig side by the running offset, its end is
    at most one line past the end of the orig span and one line past the
    start of the next range. *)
Definition trailBound (cur : option Chunk) (off : Z) (l : list DiffRangePos)
  : Prop :=
  match cur with
  | None => True
  | Some c =>
      editTo c - off <= origTo c + 1
      /\ (forall r l', l = r :: l' -> editTo c - off <= line (from r) + 1)
  end.

(** Every range starts on a line of the previous one or on the line after
    it. *)
Fixpoint contiguous (l : list DiffRangePos) : bool :=
  match l with
  | [] => true
  | r :: rest =>
      match rest with
      | [] => true
      | r' :: _ =>
          (line (from r) <=? line (from r'))
          && (line (from r') <=? line (to r) + 1)
      end
      && contiguous rest
  end.

(** Every range starts at least three lines after the last line of the
    previous one. *)
Fixpoint isolated (l : list DiffRangePos) : bool :=
  match l with
  | [] => true
  | r :: rest =>
      match rest with
      | [] => true
      | r' :: _ => line (to r) + 2 <? line (from r')
      end
      && isolated rest
  end.

(** A chunk and a state with the two sides exchanged. *)
Definition mirrorChunk (c : Chunk) : Chunk :=
  mkChunk (origFrom c) (origTo c) (editFrom c) (editTo c).

Definition mirrorState (st : ChunkState) : ChunkState :=
  mkState (map mirrorChunk (chunks st)) (- editOffset st)
          (option_map mirrorChunk (current st)).

(** The model with the given ranges as its only additions, or as its only
    deletions. *)
Definition onlyRanges (isAddition : bool) (l : list DiffRangePos)
  : StringDiffModel.t :=
  StringDiffModel.mk (Some "") (Some "") None
    (if isAddition then l else []) (if isAddition then [] else l)
    false None None.

(** An output whose data has a mimetype with dots in its name. *)
Definition widgetOutput : JValue :=
  JObj [("output_type", JStr "display_data");
        ("data", JObj [("application/vnd.widget.v1", JStr "w");
                       ("text/plain", JStr "t")])].

Definition widgetModel : OutputDiffModel.t Sample.DiffEntry :=
  OutputDiffModel.new widgetOutput widgetOutput None None None None.


(** * Properties *)

(** ** The loop of the chunk builder *)

Lemma sweep_iteration (additions deletions : list DiffRangePos)
    (st : ChunkState) :
  sweep additions st deletions =
  match iteration st additions deletions with
  | Some (st', additions', deletions') => sweep additions' st' deletions'
  | None => finish st
  end.
Proof.
  destruct additions as [|ra additions']; destruct deletions as [|rd deletions'];
    simpl; try reflexivity.
  destruct (additionNext ra rd (editOffset st)); reflexivity.
Qed.

Lemma iteration_measure (st st' : ChunkState)
    (additions deletions additions' deletions' : list DiffRangePos) :
  iteration st additions deletions = Some (st', additions', deletions') ->
  (S (List.length additions' + List.length deletions')
   = List.length additions + List.length deletions)%nat.
Proof.
  destruct additions as [|ra l]; destruct deletions as [|rd l']; simpl;
    try discriminate.
  - intros [= <- <- <-]. simpl. lia.
  - intros [= <- <- <-]. simpl. lia.
  - destruct (additionNext ra rd (editOffset st));
      intros [= <- <- <-]; simpl; lia.
Qed.

(** A property preserved by every iteration and established by [finish]
    holds of the result of the loop. *)
Lemma sweep_ind (I : ChunkState -> list DiffRangePos -> list DiffRangePos -> Prop)
    (Q : list Chunk -> Prop) :
  (forall st a d st' a' d',
      I st a d -> iteration st a d = Some (st', a', d') -> I st' a' d') ->
  (forall st, I st [] [] -> Q (finish st)) ->
  forall a st d, I st a d -> Q (sweep a st d).
Proof.
  intros Hstep Hend a st d.
  remember (List.length a + List.length d)%nat as n eqn:Hn.
  revert a st d Hn.
  induction n as [|n IH]; intros a st d Hn HI.
  - destruct a; destruct d; simpl in Hn; try discriminate.
    apply Hend. exact HI.
  - rewrite sweep_iteration.
    destruct (iteration st a d) as [[[st' a'] d']|] eqn:Hit.
    + apply IH.
      * apply iteration_measure in Hit. lia.
      * eapply Hstep; eassumption.
    + destruct a as [|ra a]; destruct d as [|rd d]; simpl in Hit;
        try discriminate.
      destruct (additionNext ra rd (editOffset st)); discriminate.
Qed.

(** C2: [getChunks] is the loop started on the ranges of the model with
    the empty state, and the loop consumes one range and goes on with the
    state after it.  When both streams still have a next range, the addition
    is consumed next unless the start of the deletion, its line taken minus
    the running [editOffset] of the state reached, is earlier than or equal
    to the start of the addition; at an exact tie (same normalized line, same
    column) the tie rule applies and the addition is consumed; the deletion
    is consumed in the remaining case, when its normalized start is strictly
    earlier in line, or in column on the same line.  With one stream
    exhausted the next range of the other is consumed, and with both
    exhausted the open chunk is pushed and the chunks are returned. *)
Theorem getChunks_choice_of_next_range :
  forall (ra rd : DiffRangePos) (additions deletions : list DiffRangePos)
         (st : ChunkState),
    let normalized := line (from rd) - editOffset st in
    let additionConsumed :=
      sweep (ra :: additions) st (rd :: deletions)
      = sweep additions (consume true ra st) (rd :: deletions) in
    let deletionConsumed :=
      sweep (ra :: additions) st (rd :: deletions)
      = sweep (ra :: additions) (consume false rd st) deletions in
    (~ (normalized < line (from ra)
        \/ (normalized = line (from ra) /\ ch (from rd) <= ch (from ra)))
     -> additionConsumed)
    /\ (normalized = line (from ra) /\ ch (from rd) = ch (from ra)
        -> additionConsumed)
    /\ (normalized < line (from ra)
        \/ (normalized = line (from ra) /\ ch (from rd) < ch (from ra))
        -> deletionConsumed)
    /\ sweep (ra :: additions) st []
       = sweep additions (consume true ra st) []
    /\ sweep [] st (rd :: deletions)
       = sweep [] (consume false rd st) deletions
    /\ sweep [] st [] = finish st
    /\ (forall m,
          StringDiffModel.getChunks m
          = sweep (StringDiffModel.additions m) initialState
                  (StringDiffModel.deletions m)).
Proof.
  intros ra rd additions deletions st normalized additionConsumed
    deletionConsumed.
  subst additionConsumed deletionConsumed normalized.
  assert (Hboth : sweep (ra :: additions) st (rd :: deletions)
                  = if additionNext ra rd (editOffset st)
                    then sweep additions (consume true ra st)
                           (rd :: deletions)
                    else sweep (ra :: additions) (consume false rd st)
                           deletions) by reflexivity.
  rewrite Hboth. unfold additionNext.
  split; [|split; [|split; [|split; [|split; [|split]]]]].
  - intros Hn.
    destruct (line (from ra) <? line (from rd) - editOffset st) eqn:E1;
      [reflexivity|].
    destruct (line (from ra) =? line (from rd) - editOffset st) eqn:E2;
      destruct (ch (from ra) <=? ch (from rd)) eqn:E3; cbn [orb andb];
      try reflexivity; exfalso; apply Hn; lia.
  - intros [Hl Hc].
    destruct (line (from ra) <? line (from rd) - editOffset st) eqn:E1;
      [reflexivity|].
    destruct (line (from ra) =? line (from rd) - editOffset st) eqn:E2;
      destruct (ch (from ra) <=? ch (from rd)) eqn:E3; cbn [orb andb];
      try reflexivity; lia.
  - intros Hd.
    destruct (line (from ra) <? line (from rd) - editOffset st) eqn:E1;
      [lia|].
    destruct (line (from ra) =? line (from rd) - editOffset st) eqn:E2;
      destruct (ch (from ra) <=? ch (from rd)) eqn:E3; cbn [orb andb];
      try reflexivity; lia.
  - reflexivity.
  - reflexivity.
  - reflexivity.
  - reflexivity.
Qed.

Lemma getChunks_choice_of_next_range_witness :
  StringDiffModel.new (Some shiftedBase) (Some shiftedRemote)
    [mkRaw 0 9; mkRaw 17 18] [mkRaw 10 11] None None None
  = Ok shiftedModel
  /\ editOffset shiftedReached = -1
  /\ sweep [shiftedAddition] shiftedReached [shiftedDeletion]
     = sweep [] (consume true shiftedAddition shiftedReached) [shiftedDeletion]
  /\ sweep [shiftedAddition] shiftedReached [lineRange 3 2 3 3]
     = sweep [] (consume true shiftedAddition shiftedReached) [lineRange 3 2 3 3]
  /\ sweep [shiftedAddition] shiftedReached [lineRange 3 1 3 2]
     = sweep [shiftedAddition] (consume false (lineRange 3 1 3 2) shiftedReached) []
  /\ StringDiffModel.getChunks shiftedModel
     = [mkChunk 0 1 0 2; mkChunk 4 5 5 5]
  /\ finish (consume true shiftedAddition
               (consume false shiftedDeletion shiftedReached))
     = [mkChunk 0 1 0 2; mkChunk 4 5 5 6; mkChunk 4 4 5 5].
Proof.
  split; [reflexivity|]. split; [reflexivity|]. split; [|split; [|split]].
  - apply (proj1 (getChunks_choice_of_next_range shiftedAddition
                    shiftedDeletion [] [] shiftedReached)).
    unfold shiftedReached. simpl. lia.
  - apply (proj1 (proj2 (getChunks_choice_of_next_range shiftedAddition
                           (lineRange 3 2 3 3) [] [] shiftedReached))).
    split; reflexivity.
  - apply (proj1 (proj2 (proj2
             (getChunks_choice_of_next_range shiftedAddition
                (lineRange 3 1 3 2) [] [] shiftedReached)))).
    right. split; [reflexivity|]. simpl. lia.
  - split; reflexivity.
Defined.

(** ** What [consume] does to the state *)

Lemma consume_cases (isAddition : bool) (r : DiffRangePos) (st : ChunkState) :
  editOffset (consume isAddition r st)
  = editOffset st + (if isAddition then - linediffOf r else linediffOf r)
  /\ ((current st = None
       /\ chunks (consume isAddition r st) = chunks st
       /\ current (consume isAddition r st)
          = Some (openChunk isAddition r (editOffset st)))
      \/ (exists cur,
            current st = Some cur
            /\ overlapsCurrent isAddition cur r = true
            /\ chunks (consume isAddition r st) = chunks st
            /\ current (consume isAddition r st)
               = Some (extendCurrent isAddition cur r))
      \/ (exists cur,
            current st = Some cur
            /\ overlapsCurrent isAddition cur r = false
            /\ chunks (consume isAddition r st) = chunks st ++ [cur]
            /\ current (consume isAddition r st)
               = Some (openChunk isAddition r (editOffset st)))).
Proof.
  unfold consume, overlapsCurrent, extendCurrent.
  destruct (current st) as [cur|] eqn:Hcur.
  - destruct isAddition.
    + destruct (inOrig cur (line (from r))) eqn:Hin; simpl;
        (split; [reflexivity|]); right; [left|right]; exists cur; auto.
    + destruct (inEdit cur (line (from r))) eqn:Hin; simpl;
        (split; [reflexivity|]); right; [left|right]; exists cur; auto.
  - simpl. split; [reflexivity|]. left. auto.
Qed.

Lemma rangesLineSorted_cons (r : DiffRangePos) (l : list DiffRangePos) :
  rangesLineSorted (r :: l) = true ->
  line (from r) <= line (to r)
  /\ rangesLineSorted l = true
  /\ (forall r' l', l = r' :: l' ->
        line (from r) + linediffOf r <= line (from r')).
Proof.
  simpl. intros H.
  apply andb_true_iff in H. destruct H as [H Hl].
  apply andb_true_iff in H. destruct H as [Hr Hn].
  apply Z.leb_le in Hr.
  repeat split; auto.
  intros r' l' ->. apply Z.leb_le in Hn. exact Hn.
Qed.

Lemma linediffOf_nonneg (r : DiffRangePos) :
  line (from r) <= line (to r) -> 0 <= linediffOf r.
Proof.
  unfold linediffOf. destruct (endsOnNewline r); lia.
Qed.

Lemma endOffsetOf_range (r : DiffRangePos) :
  (endOffsetOf r = 1 \/ (endOffsetOf r = 0 /\ endsOnNewline r = true)).
Proof.
  unfold endOffsetOf.
  destruct (chunkStartLine r); destruct (endsOnNewline r); simpl; auto.
  destruct ((ch (from r) =? 0) && (0 <? linediffOf r)); auto.
Qed.

Lemma startOffsetOf_range (r : DiffRangePos) :
  0 <= startOffsetOf r <= 1.
Proof.
  unfold startOffsetOf. destruct (chunkStartLine r); lia.
Qed.

(** The chunk opened for a range covers it, and so does the chunk extended
    for it. *)
Lemma openChunk_covers (isAddition : bool) (r : DiffRangePos) (off : Z) :
  covers isAddition (openChunk isAddition r off) r.
Proof.
  unfold covers, openChunk.
  pose proof (endOffsetOf_range r) as He.
  assert (Hl : linediffOf r
               = line (to r) - line (from r)
                 + (if endsOnNewline r then 1 else 0)) by reflexivity.
  destruct isAddition; simpl; split; try lia;
    destruct He as [He|[He Hn]]; rewrite ?Hn in Hl; 
    destruct (endsOnNewline r); lia.
Qed.

Lemma extendCurrent_covers (isAddition : bool) (cur : Chunk)
    (r : DiffRangePos) :
  overlapsCurrent isAddition cur r = true ->
  covers isAddition (extendCurrent isAddition cur r) r.
Proof.
  unfold covers, overlapsCurrent, extendCurrent, inOrig, inEdit.
  pose proof (startOffsetOf_range r) as Hs.
  destruct isAddition; simpl; intros H;
    apply andb_true_iff in H; destruct H as [H1 H2];
    apply Z.leb_le in H1; apply Z.leb_le in H2; lia.
Qed.

Lemma consume_covers (isAddition : bool) (r : DiffRangePos) (st : ChunkState) :
  exists cur,
    current (consume isAddition r st) = Some cur /\ covers isAddition cur r.
Proof.
  destruct (consume_cases isAddition r st)
    as [_ [(_ & _ & Hc)|[(cur & _ & Ho & _ & Hc)|(cur & _ & _ & _ & Hc)]]];
    rewrite Hc; eexists; split; try reflexivity.
  - apply openChunk_covers.
  - apply extendCurrent_covers. exact Ho.
  - apply openChunk_covers.
Qed.

Lemma grows_covers (isAddition : bool) (c c' : Chunk) (r : DiffRangePos) :
  grows c c' -> covers isAddition c r -> covers isAddition c' r.
Proof.
  unfold grows, covers. destruct isAddition; lia.
Qed.

Lemma extendCurrent_grows (isAddition : bool) (cur : Chunk)
    (r : DiffRangePos) :
  grows cur (extendCurrent isAddition cur r).
Proof.
  unfold grows, extendCurrent. destruct isAddition; simpl; lia.
Qed.

(** A chunk that is pushed stays; the open chunk is pushed as it is or
    extended. *)
Lemma consume_keeps_chunks (isAddition : bool) (r : DiffRangePos)
    (st : ChunkState) (c : Chunk) :
  In c (chunks st) -> In c (chunks (consume isAddition r st)).
Proof.
  intros Hin.
  destruct (consume_cases isAddition r st)
    as [_ [(_ & Hc & _)|[(cur & _ & _ & Hc & _)|(cur & _ & _ & Hc & _)]]];
    rewrite Hc; auto.
  apply in_or_app. left. exact Hin.
Qed.

Lemma consume_keeps_current (isAddition : bool) (r : DiffRangePos)
    (st : ChunkState) (cur : Chunk) :
  current st = Some cur ->
  In cur (chunks (consume isAddition r st))
  \/ exists cur', current (consume isAddition r st) = Some cur'
                  /\ grows cur cur'.
Proof.
  intros Hcur.
  destruct (consume_cases isAddition r st)
    as [_ [(Hn & _)|[(c & Hs & _ & _ & Hc)|(c & Hs & _ & Hc & _)]]].
  - congruence.
  - right. rewrite Hc. assert (c = cur) by congruence. subst c.
    eexists. split; [reflexivity|]. apply extendCurrent_grows.
  - left. rewrite Hc. assert (c = cur) by congruence. subst c.
    apply in_or_app. right. left. reflexivity.
Qed.

(** ** Every range ends up covered by a chunk *)

Lemma coverInvariant_consume (isAddition consumed : bool)
    (r range : DiffRangePos) (st : ChunkState) :
  (exists c, In c (chunks st) /\ covers isAddition c r)
  \/ (exists cur, current st = Some cur /\ covers isAddition cur r) ->
  (exists c, In c (chunks (consume consumed range st))
             /\ covers isAddition c r)
  \/ (exists cur, current (consume consumed range st) = Some cur
                  /\ covers isAddition cur r).
Proof.
  intros [(c & Hin & Hc)|(cur & Hcur & Hc)].
  - left. exists c. split; [|exact Hc].
    apply consume_keeps_chunks. exact Hin.
  - destruct (consume_keeps_current consumed range st cur Hcur)
      as [Hin|(cur' & Hcur' & Hg)].
    + left. exists cur. auto.
    + right. exists cur'. split; [exact Hcur'|].
      eapply grows_covers; eassumption.
Qed.

Lemma coverInvariant_iteration (isAddition : bool) (r : DiffRangePos)
    (st st' : ChunkState) (a d a' d' : list DiffRangePos) :
  coverInvariant isAddition r st a d ->
  iteration st a d = Some (st', a', d') ->
  coverInvariant isAddition r st' a' d'.
Proof.
  unfold coverInvariant. intros HI Hit.
  assert (Hstep :
    forall consumed range rest,
      st' = consume consumed range st ->
      (if consumed then a = range :: rest /\ a' = rest /\ d' = d
       else d = range :: rest /\ d' = rest /\ a' = a) ->
      In r (if isAddition then a' else d')
      \/ (exists c, In c (chunks st') /\ covers isAddition c r)
      \/ (exists cur, current st' = Some cur /\ covers isAddition cur r)).
  { intros consumed range rest -> Hshape.
    destruct HI as [Hin|Hcov].
    - destruct consumed; destruct Hshape as (-> & -> & ->);
        destruct isAddition; simpl in Hin; auto;
        destruct Hin as [<-|Hin]; auto;
        right; right; apply consume_covers.
    - right. apply coverInvariant_consume. exact Hcov. }
  destruct a as [|ra ar]; destruct d as [|rd dr]; simpl in Hit;
    try discriminate.
  - injection Hit as <- <- <-. apply (Hstep false rd dr); auto.
  - injection Hit as <- <- <-. apply (Hstep true ra ar); auto.
  - destruct (additionNext ra rd (editOffset st));
      injection Hit as <- <- <-.
    + apply (Hstep true ra ar); auto.
    + apply (Hstep false rd dr); auto.
Qed.

Lemma sweep_covers (isAddition : bool) (r : DiffRangePos)
    (a d : list DiffRangePos) (st : ChunkState) :
  In r (if isAddition then a else d) ->
  exists c, In c (sweep a st d) /\ covers isAddition c r.
Proof.
  intros Hin.
  apply (sweep_ind (coverInvariant isAddition r)
           (fun cs => exists c, In c cs /\ covers isAddition c r)).
  - intros st0 a0 d0 st' a' d' HI Hit.
    eapply coverInvariant_iteration; eassumption.
  - intros st0 [Hr|[(c & Hc & Hcov)|(cur & Hcur & Hcov)]].
    + destruct isAddition; destruct Hr.
    + exists c. split; [|exact Hcov].
      unfold finish. destruct (current st0); auto.
      apply in_or_app. auto.
    + exists cur. split; [|exact Hcov].
      unfold finish. rewrite Hcur. apply in_or_app. right. left. reflexivity.
  - left. exact Hin.
Qed.

(** ** The chunks come out in ascending order *)

Lemma chunkLe_trans (c1 c2 c3 : Chunk) :
  chunkLe c1 c2 -> chunkLe c2 c3 -> chunkLe c1 c3.
Proof.
  unfold chunkLe. lia.
Qed.

Lemma chunksAscending_snoc (cs : list Chunk) (c : Chunk) :
  chunksAscending cs -> Forall (fun x => chunkLe x c) cs ->
  chunksAscending (cs ++ [c]).
Proof.
  unfold chunksAscending.
  induction cs as [|x cs IH]; simpl; intros Hs Hall.
  - constructor; constructor.
  - inversion Hs as [|? ? Hs' Hx]; subst.
    inversion Hall as [|? ? Hxc Hall']; subst.
    constructor.
    + apply IH; assumption.
    + apply Forall_app. split; [assumption|].
      constructor; [assumption|constructor].
Qed.

Lemma openChunk_valid (isAddition : bool) (r : DiffRangePos) (off : Z) :
  chunkStartLine r = true -> line (from r) <= line (to r) ->
  validChunk (openChunk isAddition r off).
Proof.
  intros Hcsl Hle.
  pose proof (linediffOf_nonneg r Hle) as Hld.
  pose proof (endOffsetOf_range r) as He.
  unfold validChunk, openChunk, startOffsetOf. rewrite Hcsl.
  destruct isAddition; simpl; lia.
Qed.

Lemma extendCurrent_valid (isAddition : bool) (cur : Chunk)
    (r : DiffRangePos) :
  validChunk cur -> validChunk (extendCurrent isAddition cur r).
Proof.
  unfold validChunk, extendCurrent. destruct isAddition; simpl; lia.
Qed.

Lemma additionNext_true (ra rd : DiffRangePos) (off : Z) :
  additionNext ra rd off = true -> line (from ra) <= line (from rd) - off.
Proof.
  unfold additionNext. intros H.
  apply orb_true_iff in H. destruct H as [H|H].
  - apply Z.ltb_lt in H. lia.
  - apply andb_true_iff in H. destruct H as [H _].
    apply Z.eqb_eq in H. lia.
Qed.

Lemma additionNext_false (ra rd : DiffRangePos) (off : Z) :
  additionNext ra rd off = false -> line (from rd) - off <= line (from ra).
Proof.
  unfold additionNext. intros H.
  apply orb_false_iff in H. destruct H as [H _].
  apply Z.ltb_ge in H. exact H.
Qed.

Lemma openChunk_from (isAddition : bool) (r : DiffRangePos) (off : Z) :
  chunkStartLine r = true ->
  editFrom (openChunk isAddition r off)
  = (if isAddition then line (from r) + off else line (from r))
  /\ origFrom (openChunk isAddition r off)
     = (if isAddition then line (from r) else line (from r) - off).
Proof.
  intros Hcsl. unfold openChunk, startOffsetOf. rewrite Hcsl.
  destruct isAddition; simpl; lia.
Qed.

Lemma extendCurrent_from (isAddition : bool) (cur : Chunk)
    (r : DiffRangePos) :
  editFrom (extendCurrent isAddition cur r) = editFrom cur
  /\ origFrom (extendCurrent isAddition cur r) = origFrom cur.
Proof.
  unfold extendCurrent. destruct isAddition; simpl; auto.
Qed.

(** The bounds of [headBound] after an addition or a deletion is consumed,
    for a chunk [c] that starts no later than the consumed range. *)
Lemma headBound_after_addition (c : Chunk) (off : Z) (ra : DiffRangePos)
    (a d : list DiffRangePos) :
  origFrom c <= line (from ra) -> editFrom c <= line (from ra) + off ->
  0 <= linediffOf ra ->
  (forall r' l', a = r' :: l' ->
     line (from ra) + linediffOf ra <= line (from r')) ->
  (forall rd d', d = rd :: d' -> line (from ra) <= line (from rd) - off) ->
  headBound c (off + - linediffOf ra) a d.
Proof.
  intros Ho He Hld Hnext Hdel. split.
  - intros r' l' Heq. specialize (Hnext r' l' Heq). lia.
  - intros rd d' Heq. specialize (Hdel rd d' Heq). lia.
Qed.

Lemma headBound_after_deletion (c : Chunk) (off : Z) (rd : DiffRangePos)
    (a d : list DiffRangePos) :
  editFrom c <= line (from rd) -> origFrom c <= line (from rd) - off ->
  0 <= linediffOf rd ->
  (forall r' l', d = r' :: l' ->
     line (from rd) + linediffOf rd <= line (from r')) ->
  (forall ra a', a = ra :: a' -> line (from rd) - off <= line (from ra)) ->
  headBound c (off + linediffOf rd) a d.
Proof.
  intros He Ho Hld Hnext Hadd. split.
  - intros ra a' Heq. specialize (Hadd ra a' Heq). lia.
  - intros r' l' Heq. specialize (Hnext r' l' Heq). lia.
Qed.

(** The common part of the two preservation lemmas: the state after
    [consume] satisfies the invariant on chunks once the consumed range
    starts no earlier than the open chunk, and the chunk that stays open
    satisfies [headBound] for the remaining ranges. *)
Lemma orderInvariant_chunks (isAddition : bool) (r : DiffRangePos)
    (st : ChunkState) (a d : list DiffRangePos) :
  chunkStartLine r = true -> line (from r) <= line (to r) ->
  match current st with
  | None => chunks st = []
  | Some cur =>
      chunksAscending (chunks st)
      /\ Forall (fun c => chunkLe c cur) (chunks st)
      /\ Forall validChunk (chunks st) /\ validChunk cur
      /\ chunkLe cur (openChunk isAddition r (editOffset st))
  end ->
  (forall c, chunkLe c (openChunk isAddition r (editOffset st)) ->
             headBound c (editOffset (consume isAddition r st)) a d) ->
  match current (consume isAddition r st) with
  | None => chunks (consume isAddition r st) = []
  | Some cur =>
      chunksAscending (chunks (consume isAddition r st))
      /\ Forall (fun c => chunkLe c cur) (chunks (consume isAddition r st))
      /\ Forall validChunk (chunks (consume isAddition r st))
      /\ validChunk cur
      /\ headBound cur (editOffset (consume isAddition r st)) a d
  end.
Proof.
  intros Hcsl Hle Hst Hhead.
  pose proof (openChunk_valid isAddition r (editOffset st) Hcsl Hle) as Hvalid.
  assert (Hrefl : chunkLe (openChunk isAddition r (editOffset st))
                          (openChunk isAddition r (editOffset st)))
    by (unfold chunkLe; lia).
  destruct (consume_cases isAddition r st)
    as [_ [(Hn & Hch & Hc)|[(cur & Hs & _ & Hch & Hc)|(cur & Hs & _ & Hch & Hc)]]];
    rewrite Hc, Hch.
  - rewrite Hn in Hst. rewrite Hst.
    split; [constructor|]. split; [constructor|]. split; [constructor|].
    split; [exact Hvalid|]. apply Hhead. exact Hrefl.
  - rewrite Hs in Hst. destruct Hst as (Hasc & Hall & Hv & Hvc & Hle').
    destruct (extendCurrent_from isAddition cur r) as [He Ho].
    split; [exact Hasc|]. split.
    { eapply Forall_impl; [|exact Hall].
      intros x Hx. unfold chunkLe in *. rewrite He, Ho. exact Hx. }
    split; [exact Hv|]. split; [apply extendCurrent_valid; exact Hvc|].
    apply Hhead. unfold chunkLe in *. rewrite He, Ho. exact Hle'.
  - rewrite Hs in Hst. destruct Hst as (Hasc & Hall & Hv & Hvc & Hle').
    split; [apply chunksAscending_snoc; assumption|]. split.
    { apply Forall_app. split.
      - eapply Forall_impl; [|exact Hall].
        intros x Hx. exact (chunkLe_trans x cur _ Hx Hle').
      - constructor; [exact Hle'|constructor]. }
    split.
    { apply Forall_app. split; [exact Hv|].
      constructor; [exact Hvc|constructor]. }
    split; [exact Hvalid|].
    apply Hhead. exact Hrefl.
Qed.

Lemma orderInvariant_addition (ra : DiffRangePos) (st : ChunkState)
    (a d : list DiffRangePos) :
  orderInvariant st (ra :: a) d ->
  (forall rd d', d = rd :: d' -> additionNext ra rd (editOffset st) = true) ->
  orderInvariant (consume true ra st) a d.
Proof.
  intros (Ha & Hd & Hca & Hcd & Hcur) Hnext.
  apply rangesLineSorted_cons in Ha. destruct Ha as (Hle & Ha & Hsep).
  simpl in Hca. apply andb_true_iff in Hca. destruct Hca as [Hcsl Hca].
  pose proof (linediffOf_nonneg ra Hle) as Hld.
  destruct (openChunk_from true ra (editOffset st) Hcsl) as [HeF HoF].
  unfold orderInvariant.
  split; [exact Ha|]. split; [exact Hd|]. split; [exact Hca|].
  split; [exact Hcd|].
  apply orderInvariant_chunks; try assumption.
  - destruct (current st) as [cur|]; [|exact Hcur].
    destruct Hcur as (Hasc & Hall & Hv & Hvc & Hhead).
    repeat (split; [assumption|]).
    destruct Hhead as [Hhead _].
    destruct (Hhead ra a eq_refl) as [H1 H2].
    unfold chunkLe. rewrite HeF, HoF. lia.
  - intros c [H1 H2]. rewrite HeF in H1. rewrite HoF in H2.
    destruct (consume_cases true ra st) as [-> _].
    apply headBound_after_addition; try assumption.
    intros rd d' Heq. apply additionNext_true. eapply Hnext. exact Heq.
Qed.

Lemma orderInvariant_deletion (rd : DiffRangePos) (st : ChunkState)
    (a d : list DiffRangePos) :
  orderInvariant st a (rd :: d) ->
  (forall ra a', a = ra :: a' -> additionNext ra rd (editOffset st) = false) ->
  orderInvariant (consume false rd st) a d.
Proof.
  intros (Ha & Hd & Hca & Hcd & Hcur) Hnext.
  apply rangesLineSorted_cons in Hd. destruct Hd as (Hle & Hd & Hsep).
  simpl in Hcd. apply andb_true_iff in Hcd. destruct Hcd as [Hcsl Hcd].
  pose proof (linediffOf_nonneg rd Hle) as Hld.
  destruct (openChunk_from false rd (editOffset st) Hcsl) as [HeF HoF].
  unfold orderInvariant.
  split; [exact Ha|]. split; [exact Hd|]. split; [exact Hca|].
  split; [exact Hcd|].
  apply orderInvariant_chunks; try assumption.
  - destruct (current st) as [cur|]; [|exact Hcur].
    destruct Hcur as (Hasc & Hall & Hv & Hvc & Hhead).
    repeat (split; [assumption|]).
    destruct Hhead as [_ Hhead].
    destruct (Hhead rd d eq_refl) as [H1 H2].
    unfold chunkLe. rewrite HeF, HoF. lia.
  - intros c [H1 H2]. rewrite HeF in H1. rewrite HoF in H2.
    destruct (consume_cases false rd st) as [-> _].
    apply headBound_after_deletion; try assumption.
    intros ra a' Heq. apply additionNext_false. eapply Hnext. exact Heq.
Qed.

Lemma orderInvariant_iteration (st st' : ChunkState)
    (a d a' d' : list DiffRangePos) :
  orderInvariant st a d ->
  iteration st a d = Some (st', a', d') ->
  orderInvariant st' a' d'.
Proof.
  intros HI Hit.
  destruct a as [|ra ar]; destruct d as [|rd dr]; simpl in Hit;
    try discriminate.
  - injection Hit as <- <- <-. apply orderInvariant_deletion; [exact HI|].
    intros ra a' Heq. discriminate.
  - injection Hit as <- <- <-. apply orderInvariant_addition; [exact HI|].
    intros rd d' Heq. discriminate.
  - destruct (additionNext ra rd (editOffset st)) eqn:Hnext;
      injection Hit as <- <- <-.
    + apply orderInvariant_addition; [exact HI|].
      intros rd' d' [= <- <-]. exact Hnext.
    + apply orderInvariant_deletion; [exact HI|].
      intros ra' a' [= <- <-]. exact Hnext.
Qed.

Lemma sweep_ascending (a d : list DiffRangePos) :
  rangesLineSorted a = true -> rangesLineSorted d = true ->
  forallb chunkStartLine a = true -> forallb chunkStartLine d = true ->
  chunksAscending (sweep a initialState d)
  /\ Forall validChunk (sweep a initialState d).
Proof.
  intros Ha Hd Hca Hcd.
  apply (sweep_ind orderInvariant
           (fun cs => chunksAscending cs /\ Forall validChunk cs)).
  - intros st a0 d0 st' a' d' HI Hit.
    eapply orderInvariant_iteration; eassumption.
  - intros st (_ & _ & _ & _ & Hcur). unfold finish.
    destruct (current st) as [cur|].
    + destruct Hcur as (Hasc & Hall & Hv & Hvc & _). split.
      * apply chunksAscending_snoc; assumption.
      * apply Forall_app. split; [exact Hv|].
        constructor; [exact Hvc|constructor].
    + rewrite Hcur. split; constructor.
  - unfold orderInvariant. simpl. auto.
Qed.

(** ** Chunks of a model *)

Lemma getChunks_no_ranges (m : StringDiffModel.t) :
  StringDiffModel.additions m = [] -> StringDiffModel.deletions m = [] ->
  StringDiffModel.getChunks m = [].
Proof.
  intros Ha Hd. unfold StringDiffModel.getChunks. rewrite Ha, Hd.
  reflexivity.
Qed.

(** ** Direct models *)

Lemma raw2Pos_whole (text : string) :
  raw2Pos [mkRaw 0 (String.length text)] text
  = Ok [translate text (mkRaw 0 (String.length text))].
Proof.
  simpl. unfold wellFormedRaw. simpl.
  rewrite Nat.leb_refl. reflexivity.
Qed.

Section DirectModels.

Context {DiffEntry : Type} `{Collaborators DiffEntry}.

(** The three outcomes of [createDirectDiffModel] and its failure. *)
Lemma createDirectDiffModel_cases (base remote : JValue) :
  createDirectDiffModel base remote =
  if isNull base then Ok (additionModel (asString remote))
  else if isNull remote then Ok (deletionModel (asString base))
  else if String.eqb (asString remote) (asString base)
       then Ok (identityModel (asString base) (asString remote))
       else Throw ("Invalid arguments to createDirectDiffModel()."
                   ++ "Either base or remote should be null, "
                   ++ "or they should be equal!").
Proof.
  unfold createDirectDiffModel, StringDiffModel.new.
  destruct (isNull base).
  - rewrite raw2Pos_whole. reflexivity.
  - destruct (isNull remote).
    + rewrite raw2Pos_whole. reflexivity.
    + destruct (String.eqb (asString remote) (asString base));
        reflexivity.
Qed.

Lemma createDirectDiffModel_succeeds (base remote : JValue) :
  succeeds (createDirectDiffModel base remote) = true
  <-> isNull base = true \/ isNull remote = true
      \/ asString base = asString remote.
Proof.
  rewrite createDirectDiffModel_cases.
  destruct (isNull base); [simpl; tauto|].
  destruct (isNull remote); [simpl; tauto|].
  destruct (String.eqb_spec (asString remote) (asString base)) as [E|E];
    simpl.
  - split; auto.
  - split; [discriminate|].
    intros [H0|[H0|H0]]; try discriminate. congruence.
Qed.

End DirectModels.


(** A model with a single addition has a single chunk, whose orig span
    grows with the lines of the addition: whatever the columns and hints of
    a range over more than one line, the span is not empty. *)
Lemma single_addition_chunk (r : DiffRangePos) :
  sweep [r] initialState [] = [openChunk true r 0]
  /\ (line (from r) < line (to r) ->
      origFrom (openChunk true r 0) < origTo (openChunk true r 0)).
Proof.
  split; [reflexivity|].
  intros Hlt. unfold openChunk, linediffOf. simpl.
  pose proof (endOffsetOf_range r) as He.
  pose proof (startOffsetOf_range r) as Hs.
  destruct (endsOnNewline r); lia.
Qed.

(** C3, as stated, fails: for base [null] and remote "hello\nworld" the
    single chunk is [{editFrom: 0, editTo: 1, origFrom: 0, origTo: 2}]; its
    original span is not of zero width. *)
Lemma helloWorld_orig_span_not_empty :
  exists m,
    createDirectDiffModel (H := Sample.collaborators) JNull (JStr helloWorld)
    = Ok m
    /\ StringDiffModel.getChunks m = [mkChunk 0 1 0 2]
    /\ forall c, In c (StringDiffModel.getChunks m) -> origFrom c <> origTo c.
Proof.
  eexists. split; [reflexivity|]. split; [reflexivity|].
  intros c [<-|[]]. discriminate.
Qed.

(** C3, amended: for base [null] and remote "hello\nworld" the factory hands
    the single raw addition [{from: 0, to: 11}] and no deletion to the
    constructor; the model has one addition, from line 0 to line 1, no
    deletion, and exactly one chunk, [{editFrom: 0, editTo: 1, origFrom: 0,
    origTo: 2}]: additions are tracked on the orig side, whose span covers
    lines 0 and 1. *)
Theorem createDirectDiffModel_helloWorld :
  forall (DiffEntry : Type) (C : Collaborators DiffEntry),
    createDirectDiffModel JNull (JStr helloWorld)
    = StringDiffModel.new None (Some helloWorld) [mkRaw 0 11] []
        None None None
    /\ exists m,
         createDirectDiffModel JNull (JStr helloWorld) = Ok m
         /\ StringDiffModel.additions m
            = [mkRange (mkPos 0 0) (mkPos 1 5) true false]
         /\ StringDiffModel.deletions m = []
         /\ StringDiffModel.getChunks m = [mkChunk 0 1 0 2]
         /\ map (fun c => inOrig c 0 && inOrig c 1)
                (StringDiffModel.getChunks m) = [true].
Proof.
  intros DiffEntry C. split; [reflexivity|].
  eexists. split; [reflexivity|]. repeat split; reflexivity.
Qed.

(** C4, as stated, fails: the constructor accepts equal base and remote
    texts together with ranges; the model is unchanged and has a chunk. *)
Lemma unchanged_model_with_chunk :
  StringDiffModel.new (Some "a") (Some "a") [mkRaw 0 1] [mkRaw 0 1]
    None None None = Ok rewrittenModel
  /\ StringDiffModel.unchanged rewrittenModel = true
  /\ StringDiffModel.getChunks rewrittenModel = [mkChunk 0 1 0 1].
Proof.
  repeat split; reflexivity.
Qed.

(** C4, amended: a model built by [createDirectDiffModel] that is unchanged
    has no chunks. *)
Theorem direct_unchanged_getChunks_empty :
  forall (DiffEntry : Type) (C : Collaborators DiffEntry)
         (base remote : JValue) (m : StringDiffModel.t),
    createDirectDiffModel base remote = Ok m ->
    StringDiffModel.unchanged m = true ->
    StringDiffModel.getChunks m = [].
Proof.
  intros DiffEntry C base remote m Hm Hun.
  rewrite createDirectDiffModel_cases in Hm.
  destruct (isNull base).
  - injection Hm as <-. discriminate Hun.
  - destruct (isNull remote).
    + injection Hm as <-. discriminate Hun.
    + destruct (String.eqb (asString remote) (asString base));
        [|discriminate].
      injection Hm as <-. reflexivity.
Qed.

Lemma direct_unchanged_getChunks_empty_witness :
  StringDiffModel.getChunks (identityModel "a" "a") = [].
Proof.
  apply (direct_unchanged_getChunks_empty Sample.DiffEntry
           Sample.collaborators (JStr "a") (JStr "a") (identityModel "a" "a"));
    reflexivity.
Defined.

(** C5, as stated, fails for the value [null]: [createDirectDiffModel(null,
    null)] takes the branch of an added value; the model has an addition and
    is not unchanged. *)
Lemma createDirectDiffModel_null_null :
  createDirectDiffModel (H := Sample.collaborators) JNull JNull
  = Ok (additionModel "null")
  /\ StringDiffModel.additions (additionModel "null")
     = [mkRange (mkPos 0 0) (mkPos 0 4) true false]
  /\ StringDiffModel.unchanged (additionModel "null") = false.
Proof.
  repeat split; reflexivity.
Qed.

(** C5, amended: for every value [X] other than [null],
    [createDirectDiffModel(X, X)] yields a model without additions and
    deletions whose [unchanged] is true. *)
Theorem createDirectDiffModel_same_value :
  forall (DiffEntry : Type) (C : Collaborators DiffEntry) (X : JValue),
    isNull X = false ->
    exists m,
      createDirectDiffModel X X = Ok m
      /\ StringDiffModel.additions m = []
      /\ StringDiffModel.deletions m = []
      /\ StringDiffModel.unchanged m = true.
Proof.
  intros DiffEntry C X HX.
  rewrite createDirectDiffModel_cases, HX, String.eqb_refl.
  eexists. split; [reflexivity|].
  repeat split. unfold StringDiffModel.unchanged. simpl.
  apply String.eqb_refl.
Qed.

Lemma createDirectDiffModel_same_value_witness :
  exists m,
    createDirectDiffModel (H := Sample.collaborators)
      (JObj [("a", JNum 1)]) (JObj [("a", JNum 1)]) = Ok m
    /\ StringDiffModel.additions m = []
    /\ StringDiffModel.deletions m = []
    /\ StringDiffModel.unchanged m = true.
Proof.
  apply (createDirectDiffModel_same_value Sample.DiffEntry
           Sample.collaborators (JObj [("a", JNum 1)])).
  reflexivity.
Defined.

(** C6: [createDirectDiffModel] fails exactly when base and remote are both
    non-null and their stringified forms differ; with a null base it yields
    the pure addition model, with a null remote (and a base) the pure
    deletion model, and with both present and equal the unchanged model
    without ranges. *)
Theorem createDirectDiffModel_failure_iff :
  forall (DiffEntry : Type) (C : Collaborators DiffEntry)
         (base remote : JValue),
    ((exists msg, createDirectDiffModel base remote = Throw msg)
     <-> isNull base = false /\ isNull remote = false
         /\ asString base <> asString remote)
    /\ (isNull base = true ->
        createDirectDiffModel base remote
        = Ok (additionModel (asString remote))
        /\ StringDiffModel.added (additionModel (asString remote)) = true
        /\ StringDiffModel.deletions (additionModel (asString remote)) = []
        /\ List.length
             (StringDiffModel.additions (additionModel (asString remote)))
           = 1%nat)
    /\ (isNull base = false -> isNull remote = true ->
        createDirectDiffModel base remote
        = Ok (deletionModel (asString base))
        /\ StringDiffModel.deleted (deletionModel (asString base)) = true
        /\ StringDiffModel.additions (deletionModel (asString base)) = []
        /\ List.length
             (StringDiffModel.deletions (deletionModel (asString base)))
           = 1%nat)
    /\ (isNull base = false -> isNull remote = false ->
        asString base = asString remote ->
        createDirectDiffModel base remote
        = Ok (identityModel (asString base) (asString remote))
        /\ StringDiffModel.unchanged
             (identityModel (asString base) (asString remote)) = true
        /\ StringDiffModel.additions
             (identityModel (asString base) (asString remote)) = []
        /\ StringDiffModel.deletions
             (identityModel (asString base) (asString remote)) = []).
Proof.
  intros DiffEntry C base remote.
  rewrite createDirectDiffModel_cases.
  split; [|split; [|split]].
  - destruct (isNull base).
    { split; [intros [msg Hm]; discriminate|intros [Hb _]; discriminate]. }
    destruct (isNull remote).
    { split; [intros [msg Hm]; discriminate|intros (_ & Hr & _); discriminate]. }
    destruct (String.eqb_spec (asString remote) (asString base)) as [E|E].
    + split; [intros [msg Hm]; discriminate|].
      intros (_ & _ & Hne). congruence.
    + split; [|intros _; eexists; reflexivity].
      intros _. repeat split. congruence.
  - intros ->. repeat split.
  - intros -> ->. repeat split.
  - intros -> -> E. rewrite E, String.eqb_refl. repeat split.
    unfold StringDiffModel.unchanged. simpl. apply String.eqb_refl.
Qed.

Lemma createDirectDiffModel_failure_iff_witness :
  (exists msg,
     createDirectDiffModel (H := Sample.collaborators) (JStr "a") (JStr "b")
     = Throw msg)
  /\ createDirectDiffModel (H := Sample.collaborators) JNull (JStr "b")
     = Ok (additionModel "b")
  /\ createDirectDiffModel (H := Sample.collaborators) (JStr "a") JNull
     = Ok (deletionModel "a")
  /\ createDirectDiffModel (H := Sample.collaborators) (JStr "a") (JStr "a")
     = Ok (identityModel "a" "a").
Proof.
  split; [|split; [|split]].
  - apply (createDirectDiffModel_failure_iff Sample.DiffEntry
             Sample.collaborators (JStr "a") (JStr "b")).
    repeat split; try reflexivity. simpl. discriminate.
  - apply (createDirectDiffModel_failure_iff Sample.DiffEntry
             Sample.collaborators JNull (JStr "b")). reflexivity.
  - apply (createDirectDiffModel_failure_iff Sample.DiffEntry
             Sample.collaborators (JStr "a") JNull); reflexivity.
  - apply (createDirectDiffModel_failure_iff Sample.DiffEntry
             Sample.collaborators (JStr "a") (JStr "a")); reflexivity.
Defined.

(** ** Output models *)

(** C8: a model constructed from a base, no remote (a falsy one) and a list
    of diff entries has the patched base as its remote. *)
Theorem OutputDiffModel_remote_from_patch :
  forall (DiffEntry : Type) (C : Collaborators DiffEntry)
         (base remote : JValue) (diff : list DiffEntry)
         (collapsible : option bool) (header : option string)
         (collapsed : option bool),
    falsy remote = true ->
    diff <> [] ->
    OutputDiffModel.remote
      (OutputDiffModel.new base remote (Some diff) collapsible header
         collapsed)
    = patch base diff
    /\ OutputDiffModel.base
         (OutputDiffModel.new base remote (Some diff) collapsible header
            collapsed) = base
    /\ OutputDiffModel.diff
         (OutputDiffModel.new base remote (Some diff) collapsible header
            collapsed) = Some diff.
Proof.
  intros DiffEntry C base remote diff collapsible header collapsed Hf _.
  unfold OutputDiffModel.new. simpl. rewrite Hf. auto.
Qed.

Lemma OutputDiffModel_remote_from_patch_witness :
  OutputDiffModel.remote
    (OutputDiffModel.new (resultOutput "a") JNull (Some textDiff)
       None None None)
  = resultOutput "b".
Proof.
  apply (OutputDiffModel_remote_from_patch Sample.DiffEntry
           Sample.collaborators (resultOutput "a") JNull textDiff
           None None None).
  - reflexivity.
  - discriminate.
Defined.

(** C10: [unchanged] holds exactly of the models without a list of diff
    entries; a model constructed without one is unchanged whatever its base
    and remote are, and a model constructed with one, even an empty one, is
    not. *)
Theorem OutputDiffModel_unchanged_iff_no_diff :
  forall (DiffEntry : Type) (C : Collaborators DiffEntry),
    (forall m : OutputDiffModel.t DiffEntry,
        OutputDiffModel.unchanged m = true <-> OutputDiffModel.diff m = None)
    /\ (forall (base remote : JValue) (collapsible : option bool)
               (header : option string) (collapsed : option bool),
          OutputDiffModel.unchanged
            (OutputDiffModel.new base remote None collapsible header
               collapsed) = true)
    /\ (forall (base remote : JValue) (diff : list DiffEntry)
               (collapsible : option bool) (header : option string)
               (collapsed : option bool),
          OutputDiffModel.unchanged
            (OutputDiffModel.new base remote (Some diff) collapsible header
               collapsed) = false).
Proof.
  intros DiffEntry C. split; [|split].
  - intros m. unfold OutputDiffModel.unchanged.
    destruct (OutputDiffModel.diff m); simpl; split; congruence.
  - reflexivity.
  - reflexivity.
Qed.

(** ** The path lookup *)

Lemma indexOfDot_lt (key : string) (i : nat) :
  indexOfDot key = Some i -> (i < String.length key)%nat.
Proof.
  unfold indexOfDot. revert i.
  induction key as [|c key IH]; intros i.
  - discriminate.
  - cbn [index String.length].
    destruct (prefix "." (String c key)).
    + intros [= <-]. lia.
    + destruct (index 0 "." key) as [n|]; [|discriminate].
      intros [= <-]. specialize (IH n eq_refl). lia.
Qed.

Lemma substring_length_le (s : string) (n m : nat) :
  (String.length (substring n m s) <= m)%nat.
Proof.
  revert n m. induction s as [|c s IH]; intros n m.
  - destruct n; destruct m; simpl; lia.
  - destruct n as [|n].
    + destruct m as [|m]; simpl; [lia|].
      specialize (IH 0%nat m). lia.
    + simpl. apply IH.
Qed.

Lemma sliceFrom_shorter (key : string) (i : nat) :
  (i < String.length key)%nat ->
  (String.length (sliceFrom (S i) key) < String.length key)%nat.
Proof.
  intros Hi. unfold sliceFrom.
  pose proof (substring_length_le key (S i) (String.length key - S i)).
  lia.
Qed.

Section PathLookup.

Context {A : Type} (isFalsy : A -> bool) (get : A -> string -> A).

(** The fuel given by [getMemberByPath] is never used up: any larger amount
    gives the same result. *)
Lemma getMemberByPathFuel_enough (n : nat) :
  forall (key : string) (obj : A) (fuel fuel' : nat),
    (String.length key <= n)%nat ->
    (String.length key <= fuel)%nat -> (String.length key <= fuel')%nat ->
    getMemberByPathFuel isFalsy get fuel obj key
    = getMemberByPathFuel isFalsy get fuel' obj key.
Proof.
  induction n as [|n IH]; intros key obj fuel fuel' Hn Hf Hf'.
  - destruct key; [|simpl in Hn; lia].
    destruct fuel; destruct fuel'; reflexivity.
  - destruct (indexOfDot key) as [i|] eqn:Hi.
    + pose proof (indexOfDot_lt key i Hi) as Hlt.
      pose proof (sliceFrom_shorter key i Hlt) as Hs.
      destruct fuel as [|fuel]; [lia|]. destruct fuel' as [|fuel']; [lia|].
      simpl. rewrite Hi.
      destruct (isFalsy obj); [reflexivity|].
      apply IH; lia.
    + destruct fuel; destruct fuel'; simpl; rewrite Hi; reflexivity.
Qed.

(** The recursive equation of the source function. *)
Lemma getMemberByPath_equation (obj : A) (key : string) :
  getMemberByPath isFalsy get obj key =
  if isFalsy obj then obj
  else match indexOfDot key with
       | Some i =>
           getMemberByPath isFalsy get (get obj (sliceTo i key))
             (sliceFrom (S i) key)
       | None => get obj key
       end.
Proof.
  unfold getMemberByPath.
  destruct (indexOfDot key) as [i|] eqn:Hi.
  - pose proof (indexOfDot_lt key i Hi) as Hlt.
    pose proof (sliceFrom_shorter key i Hlt) as Hs.
    destruct (String.length key) as [|n] eqn:Hlen; [lia|].
    simpl. rewrite Hi.
    destruct (isFalsy obj); [reflexivity|].
    apply (getMemberByPathFuel_enough n); lia.
  - destruct (String.length key); simpl; rewrite Hi; reflexivity.
Qed.

End PathLookup.

(** ** [stringify] of an output model *)

Section Stringify.

Context {DiffEntry : Type} `{Collaborators DiffEntry}.

Lemma stringify_unfold (m : OutputDiffModel.t DiffEntry)
    (key : option string) :
  OutputDiffModel.stringify m key =
  (model <- factoryModel m key ;;
   mimetype <- match givenKey key with
               | Some k => OutputDiffModel.innerMimeType m k
               | None => Ok "application/json"
               end ;;
   Ok (withHints m model mimetype)).
Proof.
  unfold OutputDiffModel.stringify, factoryModel, withHints,
    OutputDiffModel.unchanged.
  destruct (OutputDiffModel.diff m) as [d|]; [|reflexivity].
  destruct (givenKey key) as [k|]; simpl.
  - destruct (OutputDiffModel.diffAtPath d k) as [sub|]; [|reflexivity].
    simpl. rewrite orb_false_r. reflexivity.
  - rewrite orb_false_r. reflexivity.
Qed.

Lemma factoryModel_without_diff (m : OutputDiffModel.t DiffEntry)
    (k : string) :
  givenKey (Some k) = Some k -> noDiffAtPath m k = true ->
  factoryModel m (Some k)
  = createDirectDiffModel
      (OutputDiffModel.valueAtPath (OutputDiffModel.base m) k)
      (OutputDiffModel.valueAtPath (OutputDiffModel.remote m) k).
Proof.
  intros Hk Hno. unfold factoryModel, noDiffAtPath in *. rewrite Hk.
  destruct (OutputDiffModel.diff m) as [d|]; [|reflexivity].
  destruct (OutputDiffModel.diffAtPath d k); [discriminate|reflexivity].
Qed.

Lemma succeeds_bind {A B : Type} (r : result A) (k : A -> result B) :
  succeeds (bind r k) = true
  <-> exists a, r = Ok a /\ succeeds (k a) = true.
Proof.
  destruct r as [a|msg]; simpl.
  - split; [intros Hk; exists a; auto|].
    intros (a' & [= <-] & Hk). exact Hk.
  - split; [discriminate|]. intros (a' & Ha & _). discriminate.
Qed.

Lemma succeeds_true {A : Type} (r : result A) :
  succeeds r = true <-> exists a, r = Ok a.
Proof.
  destruct r as [a|msg]; simpl; split; try discriminate; eauto.
  intros [a Ha]. discriminate.
Qed.

Lemma stringify_succeeds (m : OutputDiffModel.t DiffEntry) (k : string) :
  givenKey (Some k) = Some k ->
  succeeds (OutputDiffModel.stringify m (Some k)) = true
  <-> succeeds (factoryModel m (Some k)) = true
      /\ succeeds (OutputDiffModel.innerMimeType m k) = true.
Proof.
  intros Hk. rewrite stringify_unfold, Hk.
  destruct (factoryModel m (Some k)) as [model|msg]; simpl.
  - destruct (OutputDiffModel.innerMimeType m k); simpl; tauto.
  - split; [discriminate|]. intros [Hf _]. discriminate.
Qed.

Lemma stringify_mimetype (m : OutputDiffModel.t DiffEntry) (k : string)
    (model : StringDiffModel.t) :
  givenKey (Some k) = Some k ->
  OutputDiffModel.stringify m (Some k) = Ok model ->
  exists mt, OutputDiffModel.innerMimeType m k = Ok mt
             /\ StringDiffModel.mimetype model = Some mt.
Proof.
  intros Hk. rewrite stringify_unfold, Hk.
  destruct (factoryModel m (Some k)) as [model0|msg]; simpl;
    [|discriminate].
  destruct (OutputDiffModel.innerMimeType m k) as [mt|msg]; simpl;
    [|discriminate].
  intros [= <-]. exists mt. auto.
Qed.

Lemma innerMimeType_recognized (m : OutputDiffModel.t DiffEntry)
    (k : string) (t : JValue) :
  OutputDiffModel.outputType m = Ok t ->
  succeeds (OutputDiffModel.innerMimeType m k) = recognizedKey t k.
Proof.
  intros Ht. unfold OutputDiffModel.innerMimeType, recognizedKey.
  rewrite Ht. simpl.
  destruct (isString t "stream" && String.eqb k "text"); [reflexivity|].
  destruct ((isString t "execute_result" || isString t "display_data")
            && prefix "data." k); reflexivity.
Qed.

End Stringify.

(** C7, as stated, fails: the diff of [changedOutput] has no entry under
    "metadata.note" and both sub-values there are "x", yet [stringify] fails
    on the key; the outputs of [undiffedOutput] have the sub-values "a" and
    "b" at "data.text/plain" and no diff entry, and [stringify] fails in
    [createDirectDiffModel]. *)
Lemma stringify_fails_without_diff_at_path :
  noDiffAtPath changedOutput "metadata.note" = true
  /\ OutputDiffModel.valueAtPath (OutputDiffModel.base changedOutput)
       "metadata.note" = JStr "x"
  /\ OutputDiffModel.valueAtPath (OutputDiffModel.remote changedOutput)
       "metadata.note" = JStr "x"
  /\ OutputDiffModel.stringify changedOutput (Some "metadata.note")
     = Throw "Unknown MIME type for key: metadata.note"
  /\ noDiffAtPath undiffedOutput "data.text/plain" = true
  /\ OutputDiffModel.valueAtPath (OutputDiffModel.base undiffedOutput)
       "data.text/plain" = JStr "a"
  /\ OutputDiffModel.valueAtPath (OutputDiffModel.remote undiffedOutput)
       "data.text/plain" = JStr "b"
  /\ succeeds (OutputDiffModel.stringify undiffedOutput
                 (Some "data.text/plain")) = false.
Proof.
  repeat split; reflexivity.
Qed.

(** C7, amended: when the path lookup over the diff entries yields nothing
    at a non-empty key, [stringify] takes the direct factory on the base and
    remote sub-values and then assigns the mimetype of the key; it returns
    that model exactly when one sub-value is null or their stringified forms
    are equal, and [innerMimeType] knows the key; otherwise it fails. *)
Theorem stringify_without_diff_at_path :
  forall (DiffEntry : Type) (C : Collaborators DiffEntry)
         (m : OutputDiffModel.t DiffEntry) (k : string),
    givenKey (Some k) = Some k ->
    noDiffAtPath m k = true ->
    let base' := OutputDiffModel.valueAtPath (OutputDiffModel.base m) k in
    let remote' := OutputDiffModel.valueAtPath (OutputDiffModel.remote m) k in
    OutputDiffModel.stringify m (Some k)
    = (model <- createDirectDiffModel base' remote' ;;
       mimetype <- OutputDiffModel.innerMimeType m k ;;
       Ok (withHints m model mimetype))
    /\ (succeeds (OutputDiffModel.stringify m (Some k)) = true
        <-> (isNull base' = true \/ isNull remote' = true
             \/ asString base' = asString remote')
            /\ succeeds (OutputDiffModel.innerMimeType m k) = true).
Proof.
  intros DiffEntry C m k Hk Hno base' remote'. split.
  - rewrite stringify_unfold, Hk, factoryModel_without_diff by assumption.
    reflexivity.
  - rewrite stringify_succeeds, factoryModel_without_diff by assumption.
    rewrite createDirectDiffModel_succeeds. reflexivity.
Qed.

Lemma stringify_without_diff_at_path_witness :
  OutputDiffModel.stringify renotedOutput (Some "data.text/plain")
  = Ok (StringDiffModel.mk (Some "a") (Some "a") (Some "text/plain") [] []
          false None None).
Proof.
  destruct (stringify_without_diff_at_path Sample.DiffEntry
              Sample.collaborators renotedOutput "data.text/plain"
              eq_refl eq_refl) as [Heq _].
  rewrite Heq. reflexivity.
Defined.

(** C9, as stated, fails: [undiffedOutput] is an execute_result with the
    differing values "a" and "b" of data['text/plain'], and
    [stringify('data.text/plain')] fails instead of yielding a model; the
    empty key is not known to [innerMimeType], and [stringify] treats it as
    no key and returns the model of the whole output with mimetype
    application/json. *)
Lemma stringify_mimetype_exceptions :
  OutputDiffModel.outputType undiffedOutput = Ok (JStr "execute_result")
  /\ OutputDiffModel.valueAtPath (OutputDiffModel.base undiffedOutput)
       "data.text/plain" = JStr "a"
  /\ OutputDiffModel.valueAtPath (OutputDiffModel.remote undiffedOutput)
       "data.text/plain" = JStr "b"
  /\ succeeds (OutputDiffModel.stringify undiffedOutput
                 (Some "data.text/plain")) = false
  /\ succeeds (OutputDiffModel.innerMimeType sameOutput "") = false
  /\ exists model,
       OutputDiffModel.stringify sameOutput (Some "") = Ok model
       /\ StringDiffModel.mimetype model = Some "application/json".
Proof.
  repeat split; try reflexivity.
  eexists. split; reflexivity.
Qed.

(** C9, amended: for a non-empty key, a model returned by [stringify] has
    the mimetype [innerMimeType] resolves for the key from the declared type
    of the output; [stringify] returns a model exactly when its factory
    accepts the sub-values and the key is one of those known for the type,
    and fails otherwise; on an execute_result the key "data.text/plain"
    resolves to text/plain; and with differing, non-null sub-values the
    factory succeeds exactly when the diff entries resolve to a sub-diff at
    the key, the model is neither added nor deleted, and the patch factory
    succeeds on that sub-diff. *)
Theorem stringify_resolves_mimetype :
  forall (DiffEntry : Type) (C : Collaborators DiffEntry)
         (m : OutputDiffModel.t DiffEntry) (k : string),
    givenKey (Some k) = Some k ->
    let base' := OutputDiffModel.valueAtPath (OutputDiffModel.base m) k in
    let remote' := OutputDiffModel.valueAtPath (OutputDiffModel.remote m) k in
    (forall model,
        OutputDiffModel.stringify m (Some k) = Ok model ->
        exists mt, OutputDiffModel.innerMimeType m k = Ok mt
                   /\ StringDiffModel.mimetype model = Some mt)
    /\ (succeeds (OutputDiffModel.stringify m (Some k)) = true
        <-> succeeds (factoryModel m (Some k)) = true
            /\ succeeds (OutputDiffModel.innerMimeType m k) = true)
    /\ (forall t, OutputDiffModel.outputType m = Ok t ->
                  recognizedKey t k = false ->
                  exists msg, OutputDiffModel.stringify m (Some k) = Throw msg)
    /\ (OutputDiffModel.outputType m = Ok (JStr "execute_result") ->
        k = "data.text/plain" ->
        OutputDiffModel.innerMimeType m k = Ok "text/plain"
        /\ forall model,
             OutputDiffModel.stringify m (Some k) = Ok model ->
             StringDiffModel.mimetype model = Some "text/plain")
    /\ (isNull base' = false -> isNull remote' = false ->
        asString base' <> asString remote' ->
        (succeeds (factoryModel m (Some k)) = true
         <-> exists d sub,
               OutputDiffModel.diff m = Some d
               /\ OutputDiffModel.diffAtPath d k = Some sub
               /\ OutputDiffModel.added m = false
               /\ OutputDiffModel.deleted m = false
               /\ succeeds (createPatchDiffModel base' sub) = true)).
Proof.
  intros DiffEntry C m k Hk base' remote'.
  split; [|split; [|split; [|split]]].
  - intros model Hm. eapply stringify_mimetype; eassumption.
  - apply stringify_succeeds. exact Hk.
  - intros t Ht Hrec.
    destruct (OutputDiffModel.stringify m (Some k)) as [model|msg] eqn:Hs;
      [|eexists; reflexivity].
    destruct (stringify_mimetype m k model Hk Hs) as (mt & Hmt & _).
    pose proof (innerMimeType_recognized m k t Ht) as Hr.
    rewrite Hmt, Hrec in Hr. discriminate.
  - intros Ht ->.
    assert (Hmt : OutputDiffModel.innerMimeType m "data.text/plain"
                  = Ok "text/plain").
    { unfold OutputDiffModel.innerMimeType. rewrite Ht. reflexivity. }
    split; [exact Hmt|].
    intros model Hm.
    destruct (stringify_mimetype m _ model Hk Hm) as (mt & Hmt' & Hmodel).
    congruence.
  - intros Hb Hr Hne.
    assert (Hdirect : succeeds (createDirectDiffModel base' remote') = false).
    { destruct (succeeds (createDirectDiffModel base' remote')) eqn:Hs;
        [|reflexivity].
      apply createDirectDiffModel_succeeds in Hs.
      destruct Hs as [Hs|[Hs|Hs]]; congruence. }
    unfold factoryModel. rewrite Hk. fold base' remote'.
    destruct (OutputDiffModel.diff m) as [d|] eqn:Hdm.
    + destruct (OutputDiffModel.diffAtPath d k) as [sub|] eqn:Hsub.
      * destruct (OutputDiffModel.added m) eqn:Ha.
        { simpl. rewrite Hdirect. split; [discriminate|].
          intros (d0 & sub0 & _ & _ & Hadd & _). discriminate. }
        destruct (OutputDiffModel.deleted m) eqn:Hd.
        { simpl. rewrite Hdirect. split; [discriminate|].
          intros (d0 & sub0 & _ & _ & _ & Hdel & _). discriminate. }
        simpl. split.
        { intros Hs. exists d, sub. repeat split; auto. }
        { intros (d0 & sub0 & [= <-] & Hsub0 & _ & _ & Hs).
          rewrite Hsub in Hsub0. injection Hsub0 as <-. exact Hs. }
      * rewrite Hdirect. split; [discriminate|].
        intros (d0 & sub0 & [= <-] & Hsub0 & _). congruence.
    + rewrite Hdirect. split; [discriminate|].
      intros (d0 & sub0 & Hd0 & _). discriminate.
Qed.

Lemma stringify_resolves_mimetype_witness :
  OutputDiffModel.stringify changedOutput (Some "data.text/plain")
  = Ok (StringDiffModel.mk (Some "a") (Some "b") (Some "text/plain")
          [mkRange (mkPos 0 0) (mkPos 0 1) true false]
          [mkRange (mkPos 0 0) (mkPos 0 1) true false]
          false None None)
  /\ OutputDiffModel.innerMimeType changedOutput "data.text/plain"
     = Ok "text/plain".
Proof.
  destruct (stringify_resolves_mimetype Sample.DiffEntry
              Sample.collaborators changedOutput "data.text/plain" eq_refl)
    as (_ & _ & _ & Hplain & _).
  split; [reflexivity|].
  apply (Hplain eq_refl eq_refl).
Defined.

(** * Further properties of the chunk builder *)

(** X1: whatever the ranges of a model are, every addition is covered by a
    chunk on the orig side and every deletion by a chunk on the edit side,
    from its first chunk line ([from.line], or the line after it when the
    range does not start a chunk line) to past its last line. *)
Theorem getChunks_covers_every_range :
  forall (m : StringDiffModel.t) (r : DiffRangePos),
    (In r (StringDiffModel.additions m) ->
     exists c, In c (StringDiffModel.getChunks m)
               /\ origFrom c <= line (from r) + startOffsetOf r
               /\ line (to r) < origTo c)
    /\ (In r (StringDiffModel.deletions m) ->
        exists c, In c (StringDiffModel.getChunks m)
                  /\ editFrom c <= line (from r) + startOffsetOf r
                  /\ line (to r) < editTo c).
Proof.
  intros m r. unfold StringDiffModel.getChunks. split; intros Hin.
  - destruct (sweep_covers true r _ (StringDiffModel.deletions m)
                initialState Hin) as (c & Hc & Hcov).
    exists c. split; [exact Hc|exact Hcov].
  - destruct (sweep_covers false r (StringDiffModel.additions m) _
                initialState Hin) as (c & Hc & Hcov).
    exists c. split; [exact Hc|exact Hcov].
Qed.

Lemma getChunks_covers_every_range_witness :
  exists c, In c (StringDiffModel.getChunks overlapModel)
            /\ origFrom c <= 2 /\ 2 < origTo c.
Proof.
  apply (getChunks_covers_every_range overlapModel (lineRange 2 0 2 1)).
  simpl. auto.
Defined.

Lemma finish_consume_length (isAddition : bool) (r : DiffRangePos)
    (st : ChunkState) :
  (List.length (finish (consume isAddition r st))
   <= S (List.length (finish st)))%nat.
Proof.
  unfold finish.
  destruct (consume_cases isAddition r st)
    as [_ [(Hn & Hch & Hc)|[(cur & Hs & _ & Hch & Hc)|(cur & Hs & _ & Hch & Hc)]]];
    rewrite Hc, Hch.
  - rewrite Hn. rewrite length_app. simpl. lia.
  - rewrite Hs. rewrite !length_app. simpl. lia.
  - rewrite Hs. rewrite !length_app. simpl. lia.
Qed.

Lemma iteration_consumes (st st' : ChunkState)
    (a d a' d' : list DiffRangePos) :
  iteration st a d = Some (st', a', d') ->
  exists isAddition r,
    st' = consume isAddition r st
    /\ (if isAddition then a = r :: a' /\ d' = d
        else d = r :: d' /\ a' = a).
Proof.
  destruct a as [|ra ar]; destruct d as [|rd dr]; simpl; try discriminate.
  - intros [= <- <- <-]. exists false, rd. auto.
  - intros [= <- <- <-]. exists true, ra. auto.
  - destruct (additionNext ra rd (editOffset st)); intros [= <- <- <-].
    + exists true, ra. auto.
    + exists false, rd. auto.
Qed.

Lemma sweep_nonempty (a d : list DiffRangePos) :
  a <> [] \/ d <> [] -> sweep a initialState d <> [].
Proof.
  intros Hne.
  apply (sweep_ind
           (fun st a' d' =>
              (st = initialState /\ (a' <> [] \/ d' <> []))
              \/ exists cur, current st = Some cur)
           (fun cs => cs <> [])).
  - intros st a' d' st' a'' d'' _ Hit.
    destruct (iteration_consumes _ _ _ _ _ _ Hit) as (b & r & -> & _).
    right. destruct (consume_covers b r st) as (cur & Hc & _).
    exists cur. exact Hc.
  - intros st [[_ [Habs|Habs]]|[cur Hcur]]; try congruence.
    unfold finish. rewrite Hcur. intros Habs.
    apply app_eq_nil in Habs. destruct Habs. discriminate.
  - left. auto.
Qed.

(** X2: a model has no more chunks than ranges, and it has no chunk only if
    it has no range. *)
Theorem getChunks_count :
  forall m : StringDiffModel.t,
    (List.length (StringDiffModel.getChunks m)
     <= List.length (StringDiffModel.additions m)
        + List.length (StringDiffModel.deletions m))%nat
    /\ (StringDiffModel.getChunks m = []
        <-> StringDiffModel.additions m = []
            /\ StringDiffModel.deletions m = []).
Proof.
  intros m. unfold StringDiffModel.getChunks.
  set (a0 := StringDiffModel.additions m).
  set (d0 := StringDiffModel.deletions m).
  split.
  - apply (sweep_ind
             (fun st a d =>
                (List.length (finish st) + List.length a + List.length d
                 <= List.length a0 + List.length d0)%nat)
             (fun cs =>
                (List.length cs <= List.length a0 + List.length d0)%nat)).
    + intros st a d st' a' d' HI Hit.
      destruct (iteration_consumes _ _ _ _ _ _ Hit)
        as (b & r & -> & Hshape).
      pose proof (finish_consume_length b r st) as Hlen.
      destruct b; destruct Hshape as [-> ->]; simpl in HI; simpl; lia.
    + intros st HI. simpl in HI. lia.
    + simpl. lia.
  - split.
    + intros Hnil.
      destruct a0 as [|ra a0'] eqn:Ha; destruct d0 as [|rd d0'] eqn:Hd;
        auto; exfalso; revert Hnil; apply sweep_nonempty;
        first [left; discriminate|right; discriminate].
    + intros [Ha Hd]. rewrite Ha, Hd. reflexivity.
Qed.

(** ** Deletions mirror additions *)

Lemma consume_mirror (r : DiffRangePos) (st : ChunkState) :
  consume false r (mirrorState st) = mirrorState (consume true r st).
Proof.
  unfold consume, mirrorState.
  destruct (current st) as [cur|]; simpl.
  - change (inEdit (mirrorChunk cur) (line (from r)))
      with (inOrig cur (line (from r))).
    destruct (inOrig cur (line (from r))); simpl.
    + f_equal. lia.
    + rewrite map_app. simpl.
      f_equal; [lia|]. f_equal. unfold mirrorChunk. simpl. f_equal; lia.
  - f_equal; [lia|]. f_equal. unfold mirrorChunk. simpl. f_equal; lia.
Qed.

Lemma finish_mirror (st : ChunkState) :
  finish (mirrorState st) = map mirrorChunk (finish st).
Proof.
  unfold finish, mirrorState. simpl.
  destruct (current st); simpl; [rewrite map_app|]; reflexivity.
Qed.

Lemma sweepOne_cons (isAddition : bool) (r : DiffRangePos)
    (l : list DiffRangePos) (st : ChunkState) :
  sweepOne isAddition (r :: l) st
  = sweepOne isAddition l (consume isAddition r st).
Proof.
  destruct isAddition; reflexivity.
Qed.

Lemma sweepOne_nil (isAddition : bool) (st : ChunkState) :
  sweepOne isAddition [] st = finish st.
Proof.
  destruct isAddition; reflexivity.
Qed.

Lemma sweepOne_mirror (l : list DiffRangePos) (st : ChunkState) :
  sweepOne false l (mirrorState st) = map mirrorChunk (sweepOne true l st).
Proof.
  revert st. induction l as [|r l IH]; intros st.
  - rewrite !sweepOne_nil. apply finish_mirror.
  - rewrite !sweepOne_cons, consume_mirror. apply IH.
Qed.

(** X3: deletion-only mirrors addition-only.  A model whose only ranges are
    deletions has the chunks of the model with the same ranges as its only
    additions, with the edit side and the orig side exchanged. *)
Theorem getChunks_deletions_mirror_additions :
  forall m m' : StringDiffModel.t,
    StringDiffModel.additions m = [] ->
    StringDiffModel.deletions m' = [] ->
    StringDiffModel.additions m' = StringDiffModel.deletions m ->
    StringDiffModel.getChunks m
    = map mirrorChunk (StringDiffModel.getChunks m').
Proof.
  intros m m' Ha Hd Heq. unfold StringDiffModel.getChunks.
  rewrite Ha, Hd, Heq.
  exact (sweepOne_mirror (StringDiffModel.deletions m) initialState).
Qed.

Lemma getChunks_deletions_mirror_additions_witness :
  StringDiffModel.getChunks
    (onlyRanges false [lineRange 0 0 1 5; lineRange 4 0 4 2])
  = map mirrorChunk
      (StringDiffModel.getChunks
         (onlyRanges true [lineRange 0 0 1 5; lineRange 4 0 4 2])).
Proof.
  apply (getChunks_deletions_mirror_additions
           (onlyRanges false [lineRange 0 0 1 5; lineRange 4 0 4 2])
           (onlyRanges true [lineRange 0 0 1 5; lineRange 4 0 4 2]));
    reflexivity.
Defined.

(** ** Consecutive chunks *)

Lemma Sorted_snoc_replace (R : Chunk -> Chunk -> Prop) (l : list Chunk)
    (c c' : Chunk) :
  Sorted R (l ++ [c]) -> (forall y, R y c -> R y c') -> Sorted R (l ++ [c']).
Proof.
  intros Hs Hr. induction l as [|x l IH]; simpl in *.
  - constructor; constructor.
  - inversion Hs as [|? ? Hs' Hhd]; subst.
    constructor; [apply IH; exact Hs'|].
    destruct l as [|y l]; simpl in *; inversion Hhd; subst;
      constructor; auto.
Qed.

Lemma Sorted_snoc_extend (R : Chunk -> Chunk -> Prop) (l : list Chunk)
    (c n : Chunk) :
  Sorted R (l ++ [c]) -> R c n -> Sorted R ((l ++ [c]) ++ [n]).
Proof.
  intros Hs Hr. induction l as [|x l IH]; simpl in *.
  - constructor; [constructor; constructor|constructor; exact Hr].
  - inversion Hs as [|? ? Hs' Hhd]; subst.
    constructor; [apply IH; exact Hs'|].
    destruct l as [|y l]; simpl in *; inversion Hhd; subst;
      constructor; auto.
Qed.

(** A relation between consecutive chunks that looks at the start of the
    later chunk only is kept by [consume], provided a chunk that is opened
    stands in the relation to the chunk that is pushed. *)
Lemma finish_consume_sorted (R : Chunk -> Chunk -> Prop) (isAddition : bool)
    (r : DiffRangePos) (st : ChunkState) :
  (forall y c c', R y c -> editFrom c' = editFrom c ->
                  origFrom c' = origFrom c -> R y c') ->
  (forall cur, current st = Some cur ->
               overlapsCurrent isAddition cur r = false ->
               R cur (openChunk isAddition r (editOffset st))) ->
  (current st = None -> chunks st = []) ->
  Sorted R (finish st) -> Sorted R (finish (consume isAddition r st)).
Proof.
  intros Hfrom Hopen Hnone Hs. unfold finish in *.
  destruct (consume_cases isAddition r st)
    as [_ [(Hn & Hch & Hc)|[(cur & Hcur & Ho & Hch & Hc)|(cur & Hcur & Ho & Hch & Hc)]]];
    rewrite Hc, Hch.
  - rewrite (Hnone Hn). constructor; constructor.
  - rewrite Hcur in Hs.
    destruct (extendCurrent_from isAddition cur r) as [He Hor].
    eapply Sorted_snoc_replace; [exact Hs|].
    intros y Hy. eapply Hfrom; eassumption.
  - rewrite Hcur in Hs. apply Sorted_snoc_extend; [exact Hs|].
    apply Hopen; assumption.
Qed.

Lemma orderInvariant_none (st : ChunkState) (a d : list DiffRangePos) :
  orderInvariant st a d -> current st = None -> chunks st = [].
Proof.
  intros (_ & _ & _ & _ & Hcur) Hn. rewrite Hn in Hcur. exact Hcur.
Qed.

(** A chunk opened for the next range of a kind starts after the end of the
    chunk that is pushed, on the side of that kind. *)
Lemma openChunk_separated (isAddition : bool) (r : DiffRangePos)
    (st : ChunkState) (a d rest : list DiffRangePos) (cur : Chunk) :
  orderInvariant st a d ->
  (if isAddition then a = r :: rest else d = r :: rest) ->
  current st = Some cur ->
  overlapsCurrent isAddition cur r = false ->
  sepBy isAddition cur (openChunk isAddition r (editOffset st)).
Proof.
  intros (_ & _ & Hca & Hcd & Hcur) Hshape Hsome Hover.
  rewrite Hsome in Hcur. destruct Hcur as (_ & _ & _ & _ & [Hha Hhd]).
  unfold sepBy, spanTo, spanFrom, overlapsCurrent, inOrig, inEdit in *.
  destruct isAddition; subst.
  - simpl in Hca. apply andb_true_iff in Hca. destruct Hca as [Hcsl _].
    destruct (openChunk_from true r (editOffset st) Hcsl) as [_ ->].
    destruct (Hha r rest eq_refl) as [Hle _]. lia.
  - simpl in Hcd. apply andb_true_iff in Hcd. destruct Hcd as [Hcsl _].
    destruct (openChunk_from false r (editOffset st) Hcsl) as [-> _].
    destruct (Hhd r rest eq_refl) as [Hle _]. lia.
Qed.

Lemma sepBy_from (isAddition : bool) (y c c' : Chunk) :
  sepBy isAddition y c -> editFrom c' = editFrom c ->
  origFrom c' = origFrom c -> sepBy isAddition y c'.
Proof.
  unfold sepBy, spanFrom. destruct isAddition; simpl; lia.
Qed.

Lemma sweep_separated (a d : list DiffRangePos) :
  rangesLineSorted a = true -> rangesLineSorted d = true ->
  forallb chunkStartLine a = true -> forallb chunkStartLine d = true ->
  Sorted sepEither (sweep a initialState d).
Proof.
  intros Ha Hd Hca Hcd.
  apply (sweep_ind
           (fun st a d => orderInvariant st a d /\ Sorted sepEither (finish st))
           (fun cs => Sorted sepEither cs)).
  - intros st a0 d0 st' a' d' [HI Hs] Hit. split.
    + eapply orderInvariant_iteration; eassumption.
    + destruct (iteration_consumes _ _ _ _ _ _ Hit)
        as (b & r & -> & Hshape).
      apply finish_consume_sorted; try assumption.
      * intros y c c' [Hy|Hy] He Ho; [left|right];
          eapply sepBy_from; eassumption.
      * intros cur Hcur Hover.
        assert (Hsep : sepBy b cur (openChunk b r (editOffset st))).
        { destruct b; destruct Hshape as [Hl _].
          - eapply (openChunk_separated true); eassumption.
          - eapply (openChunk_separated false); eassumption. }
        destruct b; [left|right]; exact Hsep.
      * eapply orderInvariant_none. exact HI.
  - intros st [_ Hs]. exact Hs.
  - split; [|constructor].
    unfold orderInvariant. simpl. auto.
Qed.

(** X4: for ranges that are line-sorted and all start a chunk line, two
    consecutive chunks never overlap on both sides: the later one starts
    after the end of the earlier one on the orig side or on the edit
    side. *)
Theorem getChunks_consecutive_chunks_separated :
  forall m : StringDiffModel.t,
    rangesLineSorted (StringDiffModel.additions m) = true ->
    rangesLineSorted (StringDiffModel.deletions m) = true ->
    forallb chunkStartLine (StringDiffModel.additions m) = true ->
    forallb chunkStartLine (StringDiffModel.deletions m) = true ->
    Sorted (fun c1 c2 => origTo c1 < origFrom c2 \/ editTo c1 < editFrom c2)
           (StringDiffModel.getChunks m).
Proof.
  intros m Ha Hd Hca Hcd.
  exact (sweep_separated _ _ Ha Hd Hca Hcd).
Qed.

Lemma getChunks_consecutive_chunks_separated_witness :
  Sorted (fun c1 c2 => origTo c1 < origFrom c2 \/ editTo c1 < editFrom c2)
         (StringDiffModel.getChunks overlapModel).
Proof.
  apply (getChunks_consecutive_chunks_separated overlapModel); reflexivity.
Defined.

Lemma sweepOne_sorted (isAddition : bool) (l : list DiffRangePos) :
  forall st : ChunkState,
    (if isAddition then orderInvariant st l [] else orderInvariant st [] l) ->
    Sorted (sepBy isAddition) (finish st) ->
    Sorted (sepBy isAddition) (sweepOne isAddition l st).
Proof.
  induction l as [|r l IH]; intros st HI Hs.
  - rewrite sweepOne_nil. exact Hs.
  - rewrite sweepOne_cons. apply IH.
    + destruct isAddition.
      * apply orderInvariant_addition; [exact HI|]. intros rd d' Heq.
        discriminate.
      * apply orderInvariant_deletion; [exact HI|]. intros ra a' Heq.
        discriminate.
    + apply finish_consume_sorted; try assumption.
      * intros y c c'. apply sepBy_from.
      * intros cur Hcur Hover. destruct isAddition.
        -- eapply (openChunk_separated true r st (r :: l) [] l);
             try eassumption; reflexivity.
        -- eapply (openChunk_separated false r st [] (r :: l) l);
             try eassumption; reflexivity.
      * destruct isAddition; eapply orderInvariant_none; exact HI.
Qed.

Lemma separated_pairwise (isAddition : bool) (cs : list Chunk) :
  Sorted (sepBy isAddition) cs -> Forall validChunk cs ->
  StronglySorted (sepBy isAddition) cs.
Proof.
  induction cs as [|c cs IH]; intros Hs Hv; [constructor|].
  inversion Hs as [|? ? Hs' Hhd]; subst.
  inversion Hv as [|? ? Hvc Hv']; subst.
  specialize (IH Hs' Hv').
  constructor; [exact IH|].
  destruct cs as [|c2 cs]; [constructor|].
  inversion Hhd as [|? ? Hr]; subst.
  inversion IH as [|? ? _ Hall]; subst.
  inversion Hv' as [|? ? Hv2 _]; subst.
  constructor; [exact Hr|].
  eapply Forall_impl; [|exact Hall].
  intros x Hx. unfold sepBy, spanTo, spanFrom, validChunk in *.
  destruct isAddition; lia.
Qed.

(** X5: a model with additions only, line-sorted and all starting a chunk
    line, has chunks whose orig spans are pairwise disjoint, each ending
    before the next one starts; a model with deletions only has chunks whose
    edit spans are pairwise disjoint. *)
Theorem getChunks_one_kind_disjoint :
  forall m : StringDiffModel.t,
    rangesLineSorted (StringDiffModel.additions m) = true ->
    rangesLineSorted (StringDiffModel.deletions m) = true ->
    forallb chunkStartLine (StringDiffModel.additions m) = true ->
    forallb chunkStartLine (StringDiffModel.deletions m) = true ->
    (StringDiffModel.deletions m = [] ->
     StronglySorted (fun c1 c2 => origTo c1 < origFrom c2)
                    (StringDiffModel.getChunks m))
    /\ (StringDiffModel.additions m = [] ->
        StronglySorted (fun c1 c2 => editTo c1 < editFrom c2)
                       (StringDiffModel.getChunks m)).
Proof.
  intros m Ha Hd Hca Hcd.
  destruct (sweep_ascending _ _ Ha Hd Hca Hcd) as [_ Hvalid].
  unfold StringDiffModel.getChunks in *.
  split; intros Hnil; rewrite Hnil in *.
  - apply (separated_pairwise true); [|exact Hvalid].
    apply (sweepOne_sorted true); [|constructor].
    unfold orderInvariant. simpl. auto.
  - apply (separated_pairwise false); [|exact Hvalid].
    apply (sweepOne_sorted false); [|constructor].
    unfold orderInvariant. simpl. auto.
Qed.

Lemma getChunks_one_kind_disjoint_witness :
  StronglySorted (fun c1 c2 => origTo c1 < origFrom c2)
    (StringDiffModel.getChunks
       (onlyRanges true [lineRange 0 0 1 5; lineRange 4 0 4 2])).
Proof.
  apply (getChunks_one_kind_disjoint
           (onlyRanges true [lineRange 0 0 1 5; lineRange 4 0 4 2]));
    reflexivity.
Defined.

(** ** The chunks of a model: order, disjointness and coverage *)

Lemma separated_either_pairwise (cs : list Chunk) :
  Sorted sepEither cs -> chunksAscending cs -> StronglySorted sepEither cs.
Proof.
  unfold chunksAscending.
  induction cs as [|c cs IH]; intros Hs Hasc; [constructor|].
  inversion Hs as [|? ? Hs' Hhd]; subst.
  inversion Hasc as [|? ? Hasc' Hall]; subst.
  constructor; [apply IH; assumption|].
  destruct cs as [|c2 cs]; [constructor|].
  inversion Hhd as [|? ? Hr]; subst.
  inversion Hasc' as [|? ? _ Hall2]; subst.
  constructor; [exact Hr|].
  eapply Forall_impl; [|exact Hall2].
  intros x [He Ho].
  unfold sepEither, sepBy, spanTo, spanFrom in *.
  destruct Hr as [Hr|Hr]; [left|right]; lia.
Qed.

Lemma separated_both_pairwise (isAddition : bool) (cs : list Chunk) :
  Sorted (sepBoth isAddition) cs -> Forall validChunk cs ->
  StronglySorted (sepBoth isAddition) cs.
Proof.
  induction cs as [|c cs IH]; intros Hs Hv; [constructor|].
  inversion Hs as [|? ? Hs' Hhd]; subst.
  inversion Hv as [|? ? Hvc Hv']; subst.
  specialize (IH Hs' Hv').
  constructor; [exact IH|].
  destruct cs as [|c2 cs]; [constructor|].
  inversion Hhd as [|? ? Hr]; subst.
  inversion IH as [|? ? _ Hall]; subst.
  inversion Hv' as [|? ? Hv2 _]; subst.
  constructor; [exact Hr|].
  eapply Forall_impl; [|exact Hall].
  intros x Hx. unfold sepBoth, sepBy, spanTo, spanFrom, validChunk in *.
  destruct isAddition; lia.
Qed.

Lemma trailBound_consume (r : DiffRangePos) (l : list DiffRangePos)
    (st : ChunkState) :
  orderInvariant st (r :: l) [] ->
  trailBound (current st) (editOffset st) (r :: l) ->
  trailBound (current (consume true r st))
             (editOffset (consume true r st)) l.
Proof.
  intros (Ha & _ & Hca & _ & _) Ht.
  apply rangesLineSorted_cons in Ha. destruct Ha as (Hle & _ & Hsep).
  pose proof (endOffsetOf_range r) as Heo.
  destruct (consume_cases true r st)
    as [Hoff [(Hn & _ & Hc)|[(cur & Hs & _ & _ & Hc)|(cur & Hs & _ & _ & Hc)]]];
    rewrite Hc, Hoff; unfold trailBound.
  - unfold openChunk. cbn [editTo origTo]. split.
    + lia.
    + intros r' l' Heq. specialize (Hsep r' l' Heq).
      destruct Heo as [Heo|[Heo _]]; lia.
  - rewrite Hs in Ht. destruct Ht as [_ Hhead].
    specialize (Hhead r l eq_refl).
    unfold extendCurrent. cbn [editTo origTo]. split.
    + unfold linediffOf. destruct (endsOnNewline r); lia.
    + intros r' l' Heq. specialize (Hsep r' l' Heq). lia.
  - unfold openChunk. cbn [editTo origTo]. split.
    + lia.
    + intros r' l' Heq. specialize (Hsep r' l' Heq).
      destruct Heo as [Heo|[Heo _]]; lia.
Qed.

(** In a model with additions only a chunk that is opened starts after the
    end of the chunk that is pushed on the orig side, and no earlier than
    its end on the edit side. *)
Lemma sweepOne_separated_both (l : list DiffRangePos) :
  forall st : ChunkState,
    orderInvariant st l [] ->
    trailBound (current st) (editOffset st) l ->
    Sorted (sepBoth true) (finish st) ->
    Sorted (sepBoth true) (sweepOne true l st).
Proof.
  induction l as [|r l IH]; intros st HI Ht Hs.
  - rewrite sweepOne_nil. exact Hs.
  - rewrite sweepOne_cons. apply IH.
    + apply orderInvariant_addition; [exact HI|]. intros rd d' Heq.
      discriminate.
    + apply trailBound_consume; assumption.
    + apply finish_consume_sorted; try assumption.
      * intros y c c' [Hy Hy'] He Ho.
        split; [eapply sepBy_from; eassumption|]. simpl in *. lia.
      * intros cur Hcur Hover.
        pose proof (openChunk_separated true r st (r :: l) [] l cur HI
                      eq_refl Hcur Hover) as Hsep.
        split; [exact Hsep|]. cbv beta iota.
        destruct HI as (_ & _ & Hca & _ & _).
        simpl in Hca. apply andb_true_iff in Hca. destruct Hca as [Hcsl _].
        destruct (openChunk_from true r (editOffset st) Hcsl) as [HeF HoF].
        rewrite Hcur in Ht. destruct Ht as [Hto _].
        unfold sepBy, spanTo, spanFrom in Hsep. lia.
      * eapply orderInvariant_none. exact HI.
Qed.

Lemma sepBoth_mirror (cs : list Chunk) :
  Sorted (sepBoth true) cs -> Sorted (sepBoth false) (map mirrorChunk cs).
Proof.
  induction 1 as [|c cs Hs IH Hhd]; simpl; constructor; [exact IH|].
  destruct Hhd as [|c2 cs Hr]; simpl; constructor. exact Hr.
Qed.

Lemma sweepOne_both (isAddition : bool) (l : list DiffRangePos) :
  rangesLineSorted l = true -> forallb chunkStartLine l = true ->
  Sorted (sepBoth isAddition) (sweepOne isAddition l initialState).
Proof.
  intros Hl Hc.
  assert (Hadd : Sorted (sepBoth true) (sweepOne true l initialState)).
  { apply sweepOne_separated_both; [|exact I|constructor].
    unfold orderInvariant. simpl. auto. }
  destruct isAddition; [exact Hadd|].
  change initialState with (mirrorState initialState).
  rewrite sweepOne_mirror. apply sepBoth_mirror. exact Hadd.
Qed.

Lemma sorted_pair (R : Chunk -> Chunk -> Prop) (cs : list Chunk)
    (c c' : Chunk) :
  StronglySorted R cs -> In c cs -> In c' cs -> c = c' \/ R c c' \/ R c' c.
Proof.
  induction 1 as [|x l Hs IH Hall]; intros Hc Hc'; [contradiction|].
  rewrite Forall_forall in Hall.
  destruct Hc as [<-|Hc]; destruct Hc' as [<-|Hc']; auto.
Qed.

Lemma rangesLineSorted_In (l : list DiffRangePos) (r : DiffRangePos) :
  rangesLineSorted l = true -> In r l -> line (from r) <= line (to r).
Proof.
  induction l as [|x l IH]; intros Hl Hin; [contradiction|].
  apply rangesLineSorted_cons in Hl. destruct Hl as (Hle & Hl & _).
  destruct Hin as [<-|Hin]; [exact Hle|]. apply IH; assumption.
Qed.

(** Among chunks that are pairwise apart on the side of a kind of ranges, a
    range lies within the span of one chunk at most. *)
Lemma within_unique (isAddition : bool) (cs : list Chunk) (r : DiffRangePos)
    (c c' : Chunk) :
  StronglySorted (sepBoth isAddition) cs ->
  line (from r) <= line (to r) ->
  In c cs -> In c' cs ->
  rangeWithin (spanFrom isAddition c) (spanTo isAddition c) r = true ->
  rangeWithin (spanFrom isAddition c') (spanTo isAddition c') r = true ->
  c' = c.
Proof.
  intros Hs Hle Hc Hc' Hw Hw'.
  unfold rangeWithin in Hw, Hw'.
  apply andb_true_iff in Hw. destruct Hw as [H1 H2].
  apply andb_true_iff in Hw'. destruct Hw' as [H1' H2'].
  apply Z.leb_le in H1, H2, H1', H2'.
  destruct (sorted_pair _ cs c c' Hs Hc Hc') as [Heq|[[Hsep _]|[Hsep _]]];
    [symmetry; exact Heq| |]; unfold sepBy in Hsep; lia.
Qed.

(** C1, as stated, fails: the ranges of [overlapModel] are sorted by [from]
    and do not overlap, yet the two chunks of the model share lines 2 and 3
    of the orig side, and the addition as well as the deletion on line 2 lie
    within the orig span of both chunks. *)
Lemma getChunks_overlapping_chunks :
  StringDiffModel.new (Some overlapBase) (Some overlapRemote)
    [mkRaw 1 2; mkRaw 4 5] [mkRaw 0 1; mkRaw 4 5] None None None
  = Ok overlapModel
  /\ rangesSorted (StringDiffModel.additions overlapModel) = true
  /\ rangesSorted (StringDiffModel.deletions overlapModel) = true
  /\ StringDiffModel.getChunks overlapModel
     = [mkChunk 0 1 0 3; mkChunk 2 3 2 3]
  /\ chunksSeparated (StringDiffModel.getChunks overlapModel) = false
  /\ map (fun c => inOrig c 2) (StringDiffModel.getChunks overlapModel)
     = [true; true]
  /\ List.length
       (filter (fun c => rangeWithin (origFrom c) (origTo c)
                           (lineRange 2 0 2 1))
               (StringDiffModel.getChunks overlapModel)) = 2%nat.
Proof.
  repeat split; reflexivity.
Qed.

(** C1, amended: for additions and deletions that are each sorted and
    non-overlapping at the granularity of lines and whose ranges all start a
    chunk line, the chunks of [getChunks] are in ascending order of
    [editFrom] and of [origFrom] and each chunk has its spans the right way
    round.  Any two chunks are apart on at least one side: the later one
    starts after the end of the earlier one on the orig side or on the edit
    side.  In a model with ranges of one kind only any two chunks are apart
    on both sides: the later one starts after the end of the earlier one on
    the side the ranges are tracked on, and no earlier than its end on the
    other side.  Every addition lies within the orig span of a chunk and
    every deletion within the edit span of a chunk, and in a model with
    ranges of one kind only that chunk is the only one. *)
Theorem getChunks_ascending_and_covering :
  forall m : StringDiffModel.t,
    rangesLineSorted (StringDiffModel.additions m) = true ->
    rangesLineSorted (StringDiffModel.deletions m) = true ->
    forallb chunkStartLine (StringDiffModel.additions m) = true ->
    forallb chunkStartLine (StringDiffModel.deletions m) = true ->
    chunksAscending (StringDiffModel.getChunks m)
    /\ Forall validChunk (StringDiffModel.getChunks m)
    /\ StronglySorted sepEither (StringDiffModel.getChunks m)
    /\ (StringDiffModel.deletions m = [] ->
        StronglySorted (sepBoth true) (StringDiffModel.getChunks m))
    /\ (StringDiffModel.additions m = [] ->
        StronglySorted (sepBoth false) (StringDiffModel.getChunks m))
    /\ (forall r, In r (StringDiffModel.additions m) ->
          exists c, In c (StringDiffModel.getChunks m)
                    /\ origFrom c <= line (from r) /\ line (to r) < origTo c
                    /\ rangeWithin (origFrom c) (origTo c) r = true
                    /\ (StringDiffModel.deletions m = [] ->
                        forall c', In c' (StringDiffModel.getChunks m) ->
                          rangeWithin (origFrom c') (origTo c') r = true ->
                          c' = c))
    /\ (forall r, In r (StringDiffModel.deletions m) ->
          exists c, In c (StringDiffModel.getChunks m)
                    /\ editFrom c <= line (from r) /\ line (to r) < editTo c
                    /\ rangeWithin (editFrom c) (editTo c) r = true
                    /\ (StringDiffModel.additions m = [] ->
                        forall c', In c' (StringDiffModel.getChunks m) ->
                          rangeWithin (editFrom c') (editTo c') r = true ->
                          c' = c)).
Proof.
  intros m Ha Hd Hca Hcd. unfold StringDiffModel.getChunks.
  destruct (sweep_ascending _ _ Ha Hd Hca Hcd) as [Hasc Hvalid].
  pose proof (sweep_separated _ _ Ha Hd Hca Hcd) as Hsep.
  assert (Hadds : StringDiffModel.deletions m = [] ->
                  StronglySorted (sepBoth true)
                    (sweep (StringDiffModel.additions m) initialState
                           (StringDiffModel.deletions m))).
  { intros Hnil. rewrite Hnil in *.
    apply separated_both_pairwise; [|exact Hvalid].
    exact (sweepOne_both true _ Ha Hca). }
  assert (Hdels : StringDiffModel.additions m = [] ->
                  StronglySorted (sepBoth false)
                    (sweep (StringDiffModel.additions m) initialState
                           (StringDiffModel.deletions m))).
  { intros Hnil. rewrite Hnil in *.
    apply separated_both_pairwise; [|exact Hvalid].
    exact (sweepOne_both false _ Hd Hcd). }
  split; [exact Hasc|]. split; [exact Hvalid|].
  split; [apply separated_either_pairwise; assumption|].
  split; [exact Hadds|]. split; [exact Hdels|]. split.
  - intros r Hin.
    destruct (sweep_covers true r (StringDiffModel.additions m)
                (StringDiffModel.deletions m) initialState Hin)
      as (c & Hc & Hcov).
    exists c. split; [exact Hc|].
    pose proof Hca as Hcsl.
    rewrite forallb_forall in Hcsl. specialize (Hcsl r Hin).
    unfold covers, startOffsetOf in Hcov. rewrite Hcsl in Hcov.
    assert (Hw : rangeWithin (origFrom c) (origTo c) r = true)
      by (unfold rangeWithin; lia).
    split; [lia|]. split; [lia|]. split; [exact Hw|].
    intros Hnil c' Hc' Hw'.
    exact (within_unique true _ r c c' (Hadds Hnil)
             (rangesLineSorted_In _ r Ha Hin) Hc Hc' Hw Hw').
  - intros r Hin.
    destruct (sweep_covers false r (StringDiffModel.additions m)
                (StringDiffModel.deletions m) initialState Hin)
      as (c & Hc & Hcov).
    exists c. split; [exact Hc|].
    pose proof Hcd as Hcsl.
    rewrite forallb_forall in Hcsl. specialize (Hcsl r Hin).
    unfold covers, startOffsetOf in Hcov. rewrite Hcsl in Hcov.
    assert (Hw : rangeWithin (editFrom c) (editTo c) r = true)
      by (unfold rangeWithin; lia).
    split; [lia|]. split; [lia|]. split; [exact Hw|].
    intros Hnil c' Hc' Hw'.
    exact (within_unique false _ r c c' (Hdels Hnil)
             (rangesLineSorted_In _ r Hd Hin) Hc Hc' Hw Hw').
Qed.

Lemma getChunks_ascending_and_covering_witness :
  chunksAscending (StringDiffModel.getChunks overlapModel)
  /\ StronglySorted sepEither (StringDiffModel.getChunks overlapModel)
  /\ (exists c, In c (StringDiffModel.getChunks overlapModel)
                /\ origFrom c <= 2 /\ 2 < origTo c)
  /\ StronglySorted (sepBoth true)
       (StringDiffModel.getChunks
          (onlyRanges true [lineRange 0 0 1 5; lineRange 2 0 2 1;
                            lineRange 5 0 5 2]))
  /\ StronglySorted (sepBoth false)
       (StringDiffModel.getChunks
          (onlyRanges false [lineRange 0 0 1 5; lineRange 2 0 2 1;
                             lineRange 5 0 5 2])).
Proof.
  destruct (getChunks_ascending_and_covering overlapModel
              eq_refl eq_refl eq_refl eq_refl)
    as (Hasc & _ & Hsep & _ & _ & Hcover & _).
  destruct (Hcover (lineRange 2 0 2 1) (or_intror (or_introl eq_refl)))
    as (c & Hc & Hfrom & Hto & _).
  destruct (getChunks_ascending_and_covering
              (onlyRanges true [lineRange 0 0 1 5; lineRange 2 0 2 1;
                                lineRange 5 0 5 2])
              eq_refl eq_refl eq_refl eq_refl)
    as (_ & _ & _ & Hadds & _).
  destruct (getChunks_ascending_and_covering
              (onlyRanges false [lineRange 0 0 1 5; lineRange 2 0 2 1;
                                 lineRange 5 0 5 2])
              eq_refl eq_refl eq_refl eq_refl)
    as (_ & _ & _ & _ & Hdels & _).
  split; [exact Hasc|]. split; [exact Hsep|].
  split; [exists c; auto|].
  split; [apply Hadds|apply Hdels]; reflexivity.
Defined.

(** The two side conditions of the amended statement are needed, on models
    the constructor builds.  The deletions of [midLineModel] start in the
    middle of a line and do not start a chunk line: each opens its chunk one
    line further down, so the two chunks are the same empty chunk and the
    line of the deletions is in neither.  The additions of [newlineModel]
    all start a chunk line and are sorted by position, but not at the
    granularity of lines: each of the first three counts its newline twice,
    and the chunk of the last addition starts before the first chunk on the
    edit side. *)
Lemma getChunks_side_conditions :
  StringDiffModel.new (Some "abcd") (Some "ac") [] [mkRaw 1 2; mkRaw 3 4]
    None None None
  = Ok midLineModel
  /\ rangesLineSorted (StringDiffModel.deletions midLineModel) = true
  /\ forallb chunkStartLine (StringDiffModel.deletions midLineModel) = false
  /\ StringDiffModel.getChunks midLineModel
     = [mkChunk 1 1 1 1; mkChunk 1 1 1 1]
  /\ existsb (fun c => rangeWithin (editFrom c) (editTo c) midLineRange)
       (StringDiffModel.getChunks midLineModel) = false
  /\ StringDiffModel.new (Some newlineBase) (Some newlineRemote)
       [mkRaw 0 2; mkRaw 2 4; mkRaw 4 6; mkRaw 8 9] [] None None None
     = Ok newlineModel
  /\ rangesSorted (StringDiffModel.additions newlineModel) = true
  /\ forallb chunkStartLine (StringDiffModel.additions newlineModel) = true
  /\ rangesLineSorted (StringDiffModel.additions newlineModel) = false
  /\ StringDiffModel.getChunks newlineModel
     = [mkChunk 0 0 0 4; mkChunk (-1) 0 5 6]
  /\ ~ chunksAscending (StringDiffModel.getChunks newlineModel).
Proof.
  repeat (split; [reflexivity|]).
  change (StringDiffModel.getChunks newlineModel)
    with [mkChunk 0 0 0 4; mkChunk (-1) 0 5 6].
  intros Hasc. inversion Hasc as [|? ? _ Hall]; subst.
  inversion Hall as [|? ? [He _] _]; subst.
  simpl in He. lia.
Qed.



(** ** When ranges share a chunk *)

Lemma grows_trans (c1 c2 c3 : Chunk) :
  grows c1 c2 -> grows c2 c3 -> grows c1 c3.
Proof.
  unfold grows. lia.
Qed.

Lemma openChunk_spanTo (isAddition : bool) (r : DiffRangePos) (off : Z) :
  line (to r) + 1 <= spanTo isAddition (openChunk isAddition r off)
  <= line (to r) + 2.
Proof.
  pose proof (endOffsetOf_range r) as He.
  unfold spanTo, openChunk, linediffOf.
  destruct isAddition; simpl; destruct He as [He|[He Hn]];
    rewrite ?Hn; destruct (endsOnNewline r); lia.
Qed.

Lemma extendCurrent_span (isAddition : bool) (cur : Chunk)
    (r : DiffRangePos) :
  spanFrom isAddition (extendCurrent isAddition cur r)
  = spanFrom isAddition cur
  /\ spanTo isAddition (extendCurrent isAddition cur r)
     = Z.max (spanTo isAddition cur) (line (to r) + 1).
Proof.
  unfold spanFrom, spanTo, extendCurrent. destruct isAddition; auto.
Qed.

Lemma overlapsCurrent_span (isAddition : bool) (cur : Chunk)
    (r : DiffRangePos) :
  overlapsCurrent isAddition cur r
  = (spanFrom isAddition cur <=? line (from r))
    && (line (from r) <=? spanTo isAddition cur).
Proof.
  destruct isAddition; reflexivity.
Qed.

Lemma sweepOne_contiguous (isAddition : bool) (l : list DiffRangePos) :
  forall (prev : DiffRangePos) (st : ChunkState) (cur : Chunk),
    chunks st = [] -> current st = Some cur ->
    spanFrom isAddition cur <= line (from prev) ->
    line (to prev) + 1 <= spanTo isAddition cur ->
    contiguous (prev :: l) = true ->
    exists c,
      sweepOne isAddition l st = [c] /\ grows cur c
      /\ forall x, In x l ->
           spanFrom isAddition c <= line (from x)
           /\ line (to x) < spanTo isAddition c.
Proof.
  induction l as [|r l IH]; intros prev st cur Hch Hcur Hfrom Hto Hcont.
  - exists cur. rewrite sweepOne_nil. unfold finish. rewrite Hcur, Hch.
    split; [reflexivity|]. split; [unfold grows; lia|].
    intros x [].
  - change (contiguous (prev :: r :: l))
      with ((line (from prev) <=? line (from r))
            && (line (from r) <=? line (to prev) + 1)
            && contiguous (r :: l)) in Hcont.
    apply andb_true_iff in Hcont. destruct Hcont as [Hnext Hcont].
    apply andb_true_iff in Hnext. destruct Hnext as [H1 H2].
    apply Z.leb_le in H1. apply Z.leb_le in H2.
    assert (Hover : overlapsCurrent isAddition cur r = true).
    { rewrite overlapsCurrent_span. apply andb_true_iff.
      split; apply Z.leb_le; lia. }
    destruct (extendCurrent_span isAddition cur r) as [HsF HsT].
    rewrite sweepOne_cons.
    destruct (consume_cases isAddition r st)
      as [_ [(Hn & _)|[(c0 & Hc0 & _ & Hch' & Hcur')|(c0 & Hc0 & Ho & _)]]];
      try congruence.
    assert (c0 = cur) by congruence. subst c0.
    destruct (IH r (consume isAddition r st) (extendCurrent isAddition cur r))
      as (c & Hsweep & Hgrow & Hall); try assumption; try congruence; try lia.
    exists c. split; [exact Hsweep|]. split.
    + eapply grows_trans; [apply extendCurrent_grows|exact Hgrow].
    + intros x [<-|Hx]; [|apply Hall; exact Hx].
      unfold grows in Hgrow. unfold spanFrom, spanTo in *.
      destruct isAddition; lia.
Qed.

(** X6: adjacent ranges of one kind collapse into a single chunk.  When the
    first range starts a chunk line and every range starts on a line of the
    previous one or on the line after it, the model has exactly one chunk; it
    starts on the first line of the first range on both sides and covers
    every range on the side of their kind. *)
Theorem getChunks_contiguous_single_chunk :
  forall (isAddition : bool) (m : StringDiffModel.t) (r : DiffRangePos)
         (l : list DiffRangePos),
    (if isAddition then StringDiffModel.additions m
     else StringDiffModel.deletions m) = r :: l ->
    (if isAddition then StringDiffModel.deletions m
     else StringDiffModel.additions m) = [] ->
    chunkStartLine r = true ->
    contiguous (r :: l) = true ->
    exists c,
      StringDiffModel.getChunks m = [c]
      /\ editFrom c = line (from r) /\ origFrom c = line (from r)
      /\ forall x, In x (r :: l) ->
           spanFrom isAddition c <= line (from x)
           /\ line (to x) < spanTo isAddition c.
Proof.
  intros isAddition m r l Hsame Hother Hcsl Hcont.
  assert (Hsw : StringDiffModel.getChunks m
                = sweepOne isAddition (r :: l) initialState).
  { unfold StringDiffModel.getChunks, sweepOne.
    destruct isAddition; rewrite Hsame, Hother; reflexivity. }
  rewrite Hsw, sweepOne_cons.
  destruct (openChunk_from isAddition r 0 Hcsl) as [HeF HoF].
  pose proof (openChunk_spanTo isAddition r 0) as Hto.
  assert (HsF : spanFrom isAddition (openChunk isAddition r 0)
                = line (from r)).
  { unfold spanFrom. destruct isAddition; rewrite ?HeF, ?HoF; lia. }
  destruct (sweepOne_contiguous isAddition l r
              (consume isAddition r initialState) (openChunk isAddition r 0))
    as (c & Hsweep & Hgrow & Hall); try reflexivity; try lia; try assumption.
  exists c. split; [exact Hsweep|].
  unfold grows in Hgrow.
  split; [destruct isAddition; lia|]. split; [destruct isAddition; lia|].
  intros x [<-|Hx]; [|apply Hall; exact Hx].
  unfold spanFrom, spanTo in *. destruct isAddition; lia.
Qed.

Lemma getChunks_contiguous_single_chunk_witness :
  exists c,
    StringDiffModel.getChunks
      (onlyRanges false [lineRange 2 0 3 4; lineRange 4 1 4 2;
                         lineRange 4 3 6 0]) = [c]
    /\ editFrom c = 2 /\ origFrom c = 2
    /\ forall x, In x [lineRange 2 0 3 4; lineRange 4 1 4 2;
                       lineRange 4 3 6 0] ->
         spanFrom false c <= line (from x) /\ line (to x) < spanTo false c.
Proof.
  apply (getChunks_contiguous_single_chunk false
           (onlyRanges false [lineRange 2 0 3 4; lineRange 4 1 4 2;
                              lineRange 4 3 6 0])
           (lineRange 2 0 3 4) [lineRange 4 1 4 2; lineRange 4 3 6 0]);
    reflexivity.
Defined.

Lemma sweepOne_isolated (isAddition : bool) (l : list DiffRangePos) :
  forall (prev : DiffRangePos) (st : ChunkState) (cur : Chunk),
    current st = Some cur ->
    spanTo isAddition cur <= line (to prev) + 2 ->
    isolated (prev :: l) = true ->
    List.length (sweepOne isAddition l st)
    = (List.length (finish st) + List.length l)%nat.
Proof.
  induction l as [|r l IH]; intros prev st cur Hcur Hto Hiso.
  - rewrite sweepOne_nil. simpl. lia.
  - change (isolated (prev :: r :: l))
      with ((line (to prev) + 2 <? line (from r)) && isolated (r :: l))
      in Hiso.
    apply andb_true_iff in Hiso. destruct Hiso as [Hgap Hiso].
    apply Z.ltb_lt in Hgap.
    assert (Hover : overlapsCurrent isAddition cur r = false).
    { rewrite overlapsCurrent_span. apply andb_false_iff. right.
      apply Z.leb_gt. lia. }
    rewrite sweepOne_cons.
    destruct (consume_cases isAddition r st)
      as [_ [(Hn & _)|[(c0 & Hc0 & Ho & _)|(c0 & Hc0 & _ & Hch' & Hcur')]]];
      try congruence.
    assert (c0 = cur) by congruence. subst c0.
    rewrite (IH r (consume isAddition r st)
               (openChunk isAddition r (editOffset st)) Hcur').
    + unfold finish. rewrite Hcur', Hch', Hcur. rewrite !length_app.
      simpl. lia.
    + apply openChunk_spanTo.
    + exact Hiso.
Qed.

(** X7: isolated ranges of one kind get a chunk each.  When every range
    starts at least three lines after the last line of the previous one,
    the model has as many chunks as ranges. *)
Theorem getChunks_isolated_one_chunk_each :
  forall (isAddition : bool) (m : StringDiffModel.t)
         (l : list DiffRangePos),
    (if isAddition then StringDiffModel.additions m
     else StringDiffModel.deletions m) = l ->
    (if isAddition then StringDiffModel.deletions m
     else StringDiffModel.additions m) = [] ->
    isolated l = true ->
    List.length (StringDiffModel.getChunks m) = List.length l.
Proof.
  intros isAddition m l Hsame Hother Hiso.
  assert (Hsw : StringDiffModel.getChunks m
                = sweepOne isAddition l initialState).
  { unfold StringDiffModel.getChunks, sweepOne.
    destruct isAddition; rewrite Hsame, Hother; reflexivity. }
  rewrite Hsw. destruct l as [|r l].
  - rewrite sweepOne_nil. reflexivity.
  - rewrite sweepOne_cons.
    rewrite (sweepOne_isolated isAddition l r (consume isAddition r initialState)
               (openChunk isAddition r 0)).
    + reflexivity.
    + reflexivity.
    + apply openChunk_spanTo.
    + exact Hiso.
Qed.

Lemma getChunks_isolated_one_chunk_each_witness :
  List.length
    (StringDiffModel.getChunks
       (onlyRanges true [lineRange 0 0 0 3; lineRange 3 1 4 2;
                         lineRange 7 0 7 1])) = 3%nat.
Proof.
  apply (getChunks_isolated_one_chunk_each true
           (onlyRanges true [lineRange 0 0 0 3; lineRange 3 1 4 2;
                             lineRange 7 0 7 1])
           [lineRange 0 0 0 3; lineRange 3 1 4 2; lineRange 7 0 7 1]);
    reflexivity.
Defined.

(** * Further properties of the output model *)

(** ** Dotted keys *)

Lemma prefix_empty (s : string) : prefix "" s = true.
Proof.
  destruct s; reflexivity.
Qed.

Lemma prefix_dot_head (c : ascii) (s s' : string) :
  prefix "." (String c s) = prefix "." (String c s').
Proof.
  cbn [prefix]. destruct (ascii_dec "."%char c); [|reflexivity].
  rewrite !prefix_empty. reflexivity.
Qed.

Lemma substring_full (s : string) : substring 0 (String.length s) s = s.
Proof.
  induction s as [|c s IH]; simpl; [reflexivity|]. rewrite IH. reflexivity.
Qed.

Lemma indexOfDot_append (k1 k2 : string) :
  noDot k1 = true ->
  indexOfDot (k1 ++ "." ++ k2) = Some (String.length k1).
Proof.
  unfold noDot, indexOfDot.
  induction k1 as [|c k1 IH]; intros Hno.
  - cbn [append index]. cbn [prefix].
    destruct (ascii_dec "."%char "."%char) as [_|Hne]; [|congruence].
    rewrite prefix_empty. reflexivity.
  - cbn [append index String.length] in *.
    rewrite (prefix_dot_head c _ k1).
    destruct (prefix "." (String c k1)); [discriminate|].
    destruct (index 0 "." k1) as [n|]; [discriminate|].
    rewrite IH by reflexivity. reflexivity.
Qed.

Lemma sliceTo_append (k1 rest : string) :
  sliceTo (String.length k1) (k1 ++ rest) = k1.
Proof.
  unfold sliceTo. induction k1 as [|c k1 IH]; simpl.
  - destruct rest; reflexivity.
  - rewrite IH. reflexivity.
Qed.

Lemma sliceFrom_append (k1 k2 : string) :
  sliceFrom (S (String.length k1)) (k1 ++ "." ++ k2) = k2.
Proof.
  unfold sliceFrom. induction k1 as [|c k1 IH].
  - cbn [append String.length substring].
    replace (S (String.length k2) - 1)%nat with (String.length k2) by lia.
    apply substring_full.
  - cbn [append String.length substring].
    replace (S (String.length (k1 ++ "." ++ k2)) - S (S (String.length k1)))%nat
      with (String.length (k1 ++ "." ++ k2) - S (String.length k1))%nat
      by lia.
    exact IH.
Qed.

Section PathSteps.

Context {A : Type} (isFalsy : A -> bool) (get : A -> string -> A).

Lemma getMemberByPath_falsy (obj : A) (key : string) :
  isFalsy obj = true -> getMemberByPath isFalsy get obj key = obj.
Proof.
  intros Hf. rewrite getMemberByPath_equation, Hf. reflexivity.
Qed.

Lemma getMemberByPath_plain (obj : A) (key : string) :
  isFalsy obj = false -> noDot key = true ->
  getMemberByPath isFalsy get obj key = get obj key.
Proof.
  intros Hf Hno. rewrite getMemberByPath_equation, Hf.
  unfold noDot in Hno. destruct (indexOfDot key); [discriminate|reflexivity].
Qed.

Lemma getMemberByPath_dotted (obj : A) (k1 k2 : string) :
  isFalsy obj = false -> noDot k1 = true ->
  getMemberByPath isFalsy get obj (k1 ++ "." ++ k2)
  = getMemberByPath isFalsy get (get obj k1) k2.
Proof.
  intros Hf Hno.
  rewrite getMemberByPath_equation, Hf, (indexOfDot_append k1 k2 Hno).
  rewrite sliceTo_append, sliceFrom_append. reflexivity.
Qed.

End PathSteps.

(** X8: the path lookup on values never fails.  A falsy value is returned
    as it is; a key without a dot reads one property; a dotted key reads the
    property named by its first segment and goes on with the rest of the key
    in it; and when that property is missing the result is [undefined]. *)
Theorem valueAtPath_steps :
  forall (DiffEntry : Type) (C : Collaborators DiffEntry)
         (obj : JValue) (k1 k2 : string),
    (falsy obj = true -> OutputDiffModel.valueAtPath obj k1 = obj)
    /\ (falsy obj = false -> noDot k1 = true ->
        OutputDiffModel.valueAtPath obj k1 = member obj k1)
    /\ (falsy obj = false -> noDot k1 = true ->
        OutputDiffModel.valueAtPath obj (k1 ++ "." ++ k2)
        = OutputDiffModel.valueAtPath (member obj k1) k2)
    /\ (falsy obj = false -> noDot k1 = true ->
        member obj k1 = JUndefined ->
        OutputDiffModel.valueAtPath obj (k1 ++ "." ++ k2) = JUndefined).
Proof.
  intros DiffEntry C obj k1 k2. unfold OutputDiffModel.valueAtPath.
  split; [|split; [|split]].
  - apply getMemberByPath_falsy.
  - apply getMemberByPath_plain.
  - apply getMemberByPath_dotted.
  - intros Hf Hno Hmiss.
    rewrite getMemberByPath_dotted, Hmiss by assumption.
    apply getMemberByPath_falsy. reflexivity.
Qed.

Lemma valueAtPath_steps_witness :
  OutputDiffModel.valueAtPath (resultOutput "a") ("data" ++ "." ++ "text/plain")
  = OutputDiffModel.valueAtPath (member (resultOutput "a") "data") "text/plain"
  /\ OutputDiffModel.valueAtPath (resultOutput "a") ("name" ++ "." ++ "x")
     = JUndefined.
Proof.
  split.
  - apply (valueAtPath_steps Sample.DiffEntry Sample.collaborators
             (resultOutput "a") "data" "text/plain");
      reflexivity.
  - apply (valueAtPath_steps Sample.DiffEntry Sample.collaborators
             (resultOutput "a") "name" "x"); reflexivity.
Defined.

(** X9: the path lookup on diff entries descends with [getDiffKey]: a key
    without a dot is one lookup, a dotted key looks its first segment up and
    goes on in the sub-diff found there, and yields nothing when there is
    none. *)
Theorem diffAtPath_steps :
  forall (DiffEntry : Type) (C : Collaborators DiffEntry)
         (d : list DiffEntry) (k1 k2 : string),
    noDot k1 = true ->
    OutputDiffModel.diffAtPath d k1 = getDiffKey d k1
    /\ OutputDiffModel.diffAtPath d (k1 ++ "." ++ k2)
       = match getDiffKey d k1 with
         | Some sub => OutputDiffModel.diffAtPath sub k2
         | None => None
         end.
Proof.
  intros DiffEntry C d k1 k2 Hno. unfold OutputDiffModel.diffAtPath. split.
  - rewrite getMemberByPath_plain by auto. reflexivity.
  - rewrite getMemberByPath_dotted by auto.
    destruct (getDiffKey d k1) as [sub|]; [reflexivity|].
    apply getMemberByPath_falsy. reflexivity.
Qed.

Lemma diffAtPath_steps_witness :
  OutputDiffModel.diffAtPath textDiff ("data" ++ "." ++ "text/plain")
  = Some [Sample.DRemoveRange 0 1; Sample.DAddRange 0 "b"].
Proof.
  destruct (diffAtPath_steps Sample.DiffEntry Sample.collaborators textDiff
              "data" "text/plain" eq_refl) as [_ Hdot].
  rewrite Hdot. reflexivity.
Defined.

(** ** Mimetypes and their keys *)

Lemma prefix_data (mimetype : string) :
  prefix "data." ("data." ++ mimetype) = true.
Proof.
  change (prefix "data." ("data." ++ mimetype)) with (prefix "" mimetype).
  apply prefix_empty.
Qed.

Lemma sliceFrom_data (mimetype : string) :
  sliceFrom (String.length "data.") ("data." ++ mimetype) = mimetype.
Proof.
  change ("data." ++ mimetype)%string with ("data" ++ "." ++ mimetype)%string.
  exact (sliceFrom_append "data" mimetype).
Qed.

Lemma isString_bundle_not_stream (t : JValue) :
  isString t "execute_result" || isString t "display_data" = true ->
  isString t "stream" = false.
Proof.
  destruct t; simpl; try discriminate.
  intros H. apply orb_true_iff in H.
  destruct H as [H|H]; apply String.eqb_eq in H; subst; reflexivity.
Qed.

(** X10: a key that [hasMimeType] returns is always one [innerMimeType]
    knows, on the same output.  For the outputs with a data bundle the key is
    "data." followed by the mimetype and [innerMimeType] gives the mimetype
    back; for a stream the key is "text", which [innerMimeType] resolves to
    text/plain and not to the console mimetype asked for. *)
Theorem hasMimeType_key_is_known :
  forall (DiffEntry : Type) (C : Collaborators DiffEntry)
         (m : OutputDiffModel.t DiffEntry) (mimetype key : string),
    hasMimeType m mimetype = Ok (Some key) ->
    (key = "text"
     /\ mimetype = "application/vnd.jupyter.console-text"
     /\ OutputDiffModel.innerMimeType m key = Ok "text/plain")
    \/ (key = ("data." ++ mimetype)%string
        /\ OutputDiffModel.innerMimeType m key = Ok mimetype).
Proof.
  intros DiffEntry C m mimetype key.
  unfold hasMimeType, OutputDiffModel.innerMimeType.
  destruct (OutputDiffModel.outputType m) as [t|msg]; cbn [bind];
    [|discriminate].
  destruct (isString t "stream"
            && String.eqb mimetype "application/vnd.jupyter.console-text")
    eqn:Hstream.
  - intros [= <-]. left.
    apply andb_true_iff in Hstream. destruct Hstream as [Ht Hm].
    apply String.eqb_eq in Hm. rewrite Ht. auto.
  - destruct (isString t "execute_result" || isString t "display_data")
      eqn:Hbundle; [|discriminate].
    destruct (outputData m) as [data|msg]; cbn [bind]; [|discriminate].
    destruct (inOperator mimetype data) as [present|msg]; cbn [bind];
      [|discriminate].
    destruct present; [|discriminate].
    intros [= <-]. right. split; [reflexivity|].
    rewrite (isString_bundle_not_stream t Hbundle).
    pose proof (prefix_data mimetype) as Hp.
    pose proof (sliceFrom_data mimetype) as Hs.
    cbn [append] in Hp, Hs. rewrite Hp, Hs. reflexivity.
Qed.

Lemma hasMimeType_key_is_known_witness :
  OutputDiffModel.innerMimeType changedOutput "data.text/plain"
  = Ok "text/plain".
Proof.
  destruct (hasMimeType_key_is_known Sample.DiffEntry Sample.collaborators
              changedOutput "text/plain" "data.text/plain" eq_refl)
    as [(Habs & _)|(_ & Hinner)].
  - discriminate Habs.
  - exact Hinner.
Defined.

Lemma lookupField_missing (fields : list (string * JValue)) (key : string) :
  hasKey fields key = false -> lookupField fields key = JUndefined.
Proof.
  unfold hasKey. induction fields as [|[k v] fields IH]; simpl;
    [reflexivity|].
  destruct (String.eqb k key); simpl; [discriminate|exact IH].
Qed.

(** X11: the key of a mimetype leads the path lookup to the entry of the
    mimetype in the data bundle only if the mimetype has no dot.  Without a
    dot the lookup reads the property of that name of the bundle: the entry
    when the bundle has one.  A dot in the mimetype is taken for a path
    separator: the lookup reads the property named by the part before the
    dot and goes on in it with the rest, and it yields [undefined] when the
    bundle neither has nor inherits such a property, also when the mimetype
    itself is a key of the bundle. *)
Theorem mimetype_key_lookup :
  forall (DiffEntry : Type) (C : Collaborators DiffEntry)
         (obj : JValue) (fields : list (string * JValue)) (a b : string),
    falsy obj = false ->
    member obj "data" = JObj fields ->
    noDot a = true ->
    OutputDiffModel.valueAtPath obj ("data." ++ a) = member (JObj fields) a
    /\ (hasKey fields a = true ->
        OutputDiffModel.valueAtPath obj ("data." ++ a) = lookupField fields a)
    /\ OutputDiffModel.valueAtPath obj ("data." ++ a ++ "." ++ b)
       = OutputDiffModel.valueAtPath (member (JObj fields) a) b
    /\ (hasKey fields a = false -> inherited (JObj fields) a = None ->
        OutputDiffModel.valueAtPath obj ("data." ++ a ++ "." ++ b)
        = JUndefined).
Proof.
  intros DiffEntry C obj fields a b Hobj Hdata Hno.
  change ("data." ++ a)%string with ("data" ++ "." ++ a)%string.
  change ("data." ++ a ++ "." ++ b)%string
    with ("data" ++ "." ++ (a ++ "." ++ b))%string.
  destruct (valueAtPath_steps DiffEntry C obj "data" a)
    as (_ & _ & Hstep & _).
  destruct (valueAtPath_steps DiffEntry C obj "data" (a ++ "." ++ b))
    as (_ & _ & Hstep' & _).
  rewrite Hstep, Hstep' by (auto; reflexivity). rewrite Hdata.
  destruct (valueAtPath_steps DiffEntry C (JObj fields) a b)
    as (_ & Hplain & Hdot & Hmiss).
  split; [|split; [|split]].
  - apply Hplain; auto.
  - intros Hkey. rewrite Hplain by auto.
    cbn [member]. rewrite Hkey. reflexivity.
  - apply Hdot; auto.
  - intros Hkey Hnone. apply Hmiss; auto.
    cbn [member]. rewrite Hkey. unfold fromPrototype. rewrite Hnone.
    reflexivity.
Qed.

Lemma mimetype_key_lookup_witness :
  hasMimeType widgetModel "application/vnd.widget.v1"
  = Ok (Some "data.application/vnd.widget.v1")
  /\ OutputDiffModel.valueAtPath widgetOutput
       ("data." ++ "application/vnd" ++ "." ++ "widget.v1") = JUndefined
  /\ OutputDiffModel.valueAtPath widgetOutput ("data." ++ "text/plain")
     = JStr "t"
  /\ OutputDiffModel.valueAtPath widgetOutput
       ("data." ++ "constructor" ++ "." ++ "name") = JStr "Object".
Proof.
  destruct (mimetype_key_lookup Sample.DiffEntry Sample.collaborators
              widgetOutput
              [("application/vnd.widget.v1", JStr "w");
               ("text/plain", JStr "t")]
              "application/vnd" "widget.v1" eq_refl eq_refl eq_refl)
    as (_ & _ & _ & Hdotted).
  destruct (mimetype_key_lookup Sample.DiffEntry Sample.collaborators
              widgetOutput
              [("application/vnd.widget.v1", JStr "w");
               ("text/plain", JStr "t")]
              "text/plain" "" eq_refl eq_refl eq_refl)
    as (_ & Hplain & _).
  destruct (mimetype_key_lookup Sample.DiffEntry Sample.collaborators
              widgetOutput
              [("application/vnd.widget.v1", JStr "w");
               ("text/plain", JStr "t")]
              "constructor" "name" eq_refl eq_refl eq_refl)
    as (_ & _ & Hinherited & _).
  split; [reflexivity|]. split; [|split].
  - apply Hdotted; reflexivity.
  - rewrite Hplain; reflexivity.
  - rewrite Hinherited. reflexivity.
Defined.

(** X12: the outcomes of [hasMimeType].  A stream has the console mimetype
    only; an output with a data bundle has exactly the mimetypes that name a
    property of the bundle, its own or an inherited one, and any other
    mimetype gives [null]; an output of any other type has none. *)
Theorem hasMimeType_outcomes :
  forall (DiffEntry : Type) (C : Collaborators DiffEntry)
         (m : OutputDiffModel.t DiffEntry) (mimetype : string) (t : JValue),
    OutputDiffModel.outputType m = Ok t ->
    (isString t "stream" = true ->
     hasMimeType m mimetype
     = Ok (if String.eqb mimetype "application/vnd.jupyter.console-text"
           then Some "text" else None))
    /\ (isString t "execute_result" || isString t "display_data" = true ->
        forall fields, outputData m = Ok (JObj fields) ->
        hasMimeType m mimetype
        = Ok (if hasKey fields mimetype
                 || negb (isNone (inherited (JObj fields) mimetype))
              then Some ("data." ++ mimetype)%string else None))
    /\ (isString t "stream" = false ->
        isString t "execute_result" || isString t "display_data" = false ->
        hasMimeType m mimetype = Ok None).
Proof.
  intros DiffEntry C m mimetype t Ht. unfold hasMimeType. rewrite Ht.
  cbn [bind]. split; [|split].
  - intros Hs. rewrite Hs. cbn [andb].
    destruct (String.eqb mimetype "application/vnd.jupyter.console-text");
      [reflexivity|].
    destruct t; simpl in Hs; try discriminate.
    apply String.eqb_eq in Hs. subst. reflexivity.
  - intros Hb fields Hdata.
    rewrite (isString_bundle_not_stream t Hb), Hb, Hdata. cbn [andb bind].
    unfold inOperator. cbn [bind].
    destruct (hasKey fields mimetype
              || negb (isNone (inherited (JObj fields) mimetype)));
      reflexivity.
  - intros Hs Hb. rewrite Hs, Hb. reflexivity.
Qed.

Lemma hasMimeType_outcomes_witness :
  hasMimeType changedOutput "image/png" = Ok None
  /\ hasMimeType changedOutput "text/plain" = Ok (Some "data.text/plain")
  /\ hasMimeType changedOutput "toString" = Ok (Some "data.toString").
Proof.
  destruct (hasMimeType_outcomes Sample.DiffEntry Sample.collaborators
              changedOutput "image/png"
              (JStr "execute_result") eq_refl) as (_ & Hpng & _).
  destruct (hasMimeType_outcomes Sample.DiffEntry Sample.collaborators
              changedOutput "text/plain"
              (JStr "execute_result") eq_refl) as (_ & Hplain & _).
  destruct (hasMimeType_outcomes Sample.DiffEntry Sample.collaborators
              changedOutput "toString"
              (JStr "execute_result") eq_refl) as (_ & Hinherited & _).
  split; [|split].
  - apply (Hpng eq_refl [("text/plain", JStr "a")]). reflexivity.
  - apply (Hplain eq_refl [("text/plain", JStr "a")]). reflexivity.
  - apply (Hinherited eq_refl [("text/plain", JStr "a")]). reflexivity.
Defined.

(** ** Classification of string models *)

(** X13: a model built by [createDirectDiffModel] is exactly one of added,
    deleted and unchanged. *)
Theorem direct_model_classification :
  forall (DiffEntry : Type) (C : Collaborators DiffEntry)
         (base remote : JValue) (m : StringDiffModel.t),
    createDirectDiffModel base remote = Ok m ->
    (StringDiffModel.added m = true /\ StringDiffModel.deleted m = false
     /\ StringDiffModel.unchanged m = false /\ isNull base = true)
    \/ (StringDiffModel.added m = false /\ StringDiffModel.deleted m = true
        /\ StringDiffModel.unchanged m = false
        /\ isNull base = false /\ isNull remote = true)
    \/ (StringDiffModel.added m = false /\ StringDiffModel.deleted m = false
        /\ StringDiffModel.unchanged m = true
        /\ isNull base = false /\ isNull remote = false).
Proof.
  intros DiffEntry C base remote m. rewrite createDirectDiffModel_cases.
  destruct (isNull base).
  - intros [= <-]. left. repeat split.
  - destruct (isNull remote).
    + intros [= <-]. right. left. repeat split.
    + destruct (String.eqb (asString remote) (asString base)) eqn:E;
        [|discriminate].
      intros [= <-]. right. right. repeat split.
      unfold StringDiffModel.unchanged. simpl.
      rewrite String.eqb_sym. exact E.
Qed.

Lemma direct_model_classification_witness :
  StringDiffModel.added (deletionModel "a") = false
  /\ StringDiffModel.deleted (deletionModel "a") = true
  /\ StringDiffModel.unchanged (deletionModel "a") = false.
Proof.
  destruct (direct_model_classification Sample.DiffEntry Sample.collaborators
              (JStr "a") JNull (deletionModel "a") eq_refl)
    as [(_ & _ & _ & Habs)|[(Ha & Hd & Hu & _)|(_ & _ & _ & _ & Habs)]].
  - discriminate Habs.
  - auto.
  - discriminate Habs.
Defined.

(** X14: the constructor of a string model keeps the texts it is given and
    drops the ranges of a missing side: deletions passed with a null base,
    and additions passed with a null remote, are not translated and do not
    reach the model, whatever they are. *)
Theorem StringDiffModel_new_missing_side :
  forall (base remote : option string) (additions deletions : list DiffRangeRaw)
         (collapsible : option bool) (header : option string)
         (collapsed : option bool),
    StringDiffModel.new None remote additions deletions collapsible header
      collapsed
    = StringDiffModel.new None remote additions [] collapsible header collapsed
    /\ StringDiffModel.new base None additions deletions collapsible header
         collapsed
       = StringDiffModel.new base None [] deletions collapsible header
           collapsed
    /\ forall m,
         StringDiffModel.new base remote additions deletions collapsible
           header collapsed = Ok m ->
         StringDiffModel.base m = base /\ StringDiffModel.remote m = remote
         /\ (StringDiffModel.added m = true ->
             StringDiffModel.deletions m = [])
         /\ (StringDiffModel.deleted m = true ->
             StringDiffModel.additions m = []).
Proof.
  intros base remote additions deletions collapsible header collapsed.
  split; [reflexivity|]. split.
  - unfold StringDiffModel.new. destruct base as [b|]; reflexivity.
  - intros m. unfold StringDiffModel.new.
    destruct base as [b|]; destruct remote as [r|]; cbn [bind].
    + destruct (raw2Pos deletions b); cbn [bind]; [|discriminate].
      destruct (raw2Pos additions r); cbn [bind]; [|discriminate].
      intros [= <-]. repeat split; discriminate.
    + destruct (raw2Pos deletions b); cbn [bind]; [|discriminate].
      intros [= <-]. repeat split. discriminate.
    + destruct (raw2Pos additions r); cbn [bind]; [|discriminate].
      intros [= <-]. repeat split. discriminate.
    + intros [= <-]. repeat split.
Qed.

(** ** [stringify] of added, deleted and patched outputs *)

Section StringifyPaths.

Context {DiffEntry : Type} `{Collaborators DiffEntry}.




End StringifyPaths.



(** X16: [stringify] without a key, or with the empty key, builds the model
    of the whole outputs with mimetype application/json and never asks
    [innerMimeType]; on a model without diff entries it succeeds exactly
    when one of the outputs is null or both have the same stringified
    form. *)
Theorem stringify_whole_output :
  forall (DiffEntry : Type) (C : Collaborators DiffEntry)
         (m : OutputDiffModel.t DiffEntry),
    OutputDiffModel.stringify m (Some "") = OutputDiffModel.stringify m None
    /\ OutputDiffModel.stringify m None
       = (model <- factoryModel m None ;;
          Ok (withHints m model "application/json"))
    /\ (OutputDiffModel.diff m = None ->
        (succeeds (OutputDiffModel.stringify m None) = true
         <-> isNull (OutputDiffModel.base m) = true
             \/ isNull (OutputDiffModel.remote m) = true
             \/ asString (OutputDiffModel.base m)
                = asString (OutputDiffModel.remote m))).
Proof.
  intros DiffEntry C m. split; [reflexivity|]. split.
  - rewrite stringify_unfold. reflexivity.
  - intros Hd. rewrite stringify_unfold. cbn [givenKey].
    unfold factoryModel. rewrite Hd. cbn [givenKey].
    rewrite <- createDirectDiffModel_succeeds.
    destruct (createDirectDiffModel (OutputDiffModel.base m)
                (OutputDiffModel.remote m)); simpl; tauto.
Qed.

Lemma stringify_whole_output_witness :
  succeeds (OutputDiffModel.stringify undiffedOutput None) = false.
Proof.
  destruct (succeeds (OutputDiffModel.stringify undiffedOutput None)) eqn:Hs;
    [|reflexivity].
  destruct (stringify_whole_output Sample.DiffEntry Sample.collaborators
              undiffedOutput) as (_ & _ & Hiff).
  apply (Hiff eq_refl) in Hs.
  destruct Hs as [Hs|[Hs|Hs]]; discriminate Hs.
Defined.

(** X17: when the diff entries resolve to a sub-diff at the key and the
    output is neither added nor deleted, the model [stringify] returns is
    built from the base sub-value alone: its base text is the stringified
    base sub-value and its remote text is the text [patchStringified] yields
    for it; the remote output does not enter.  The model is never added or
    deleted. *)
Theorem stringify_patched_output :
  forall (DiffEntry : Type) (C : Collaborators DiffEntry)
         (m : OutputDiffModel.t DiffEntry) (k : string)
         (d sub : list DiffEntry) (model : StringDiffModel.t),
    givenKey (Some k) = Some k ->
    OutputDiffModel.diff m = Some d ->
    OutputDiffModel.diffAtPath d k = Some sub ->
    OutputDiffModel.added m = false ->
    OutputDiffModel.deleted m = false ->
    OutputDiffModel.stringify m (Some k) = Ok model ->
    let base' := OutputDiffModel.valueAtPath (OutputDiffModel.base m) k in
    StringDiffModel.base model = Some (asString base')
    /\ StringDiffModel.remote model
       = Some (outRemote (patchStringified base' sub))
    /\ StringDiffModel.added model = false
    /\ StringDiffModel.deleted model = false
    /\ exists mt, OutputDiffModel.innerMimeType m k = Ok mt
                  /\ StringDiffModel.mimetype model = Some mt.
Proof.
  intros DiffEntry C m k d sub model Hk Hd Hsub Ha Hdel Hs base'.
  rewrite stringify_unfold, Hk in Hs.
  unfold factoryModel in Hs. rewrite Hd, Hk, Hsub, Ha, Hdel in Hs.
  cbn [orb] in Hs. fold base' in Hs.
  unfold createPatchDiffModel, StringDiffModel.new in Hs.
  destruct (raw2Pos (outDeletions (patchStringified base' sub))
              (asString base')); cbn [bind] in Hs; [|discriminate].
  destruct (raw2Pos (outAdditions (patchStringified base' sub))
              (outRemote (patchStringified base' sub)));
    cbn [bind] in Hs; [|discriminate].
  destruct (OutputDiffModel.innerMimeType m k) as [mt|msg];
    cbn [bind] in Hs; [|discriminate].
  injection Hs as <-. repeat split. exists mt. split; reflexivity.
Qed.

Lemma stringify_patched_output_witness :
  exists model,
    OutputDiffModel.stringify changedOutput (Some "data.text/plain")
    = Ok model
    /\ StringDiffModel.base model = Some "a"
    /\ StringDiffModel.remote model = Some "b".
Proof.
  eexists. split; [reflexivity|].
  destruct (stringify_patched_output Sample.DiffEntry Sample.collaborators
              changedOutput "data.text/plain" textDiff
              [Sample.DRemoveRange 0 1; Sample.DAddRange 0 "b"]
              _ eq_refl eq_refl eq_refl eq_refl eq_refl eq_refl)
    as (Hb & Hr & _).
  split; [exact Hb|exact Hr].
Defined.

(** X18: the string model of an output carries the collapsing hints the
    output model was constructed with: it is collapsible only for the
    argument [true], and only then has a header (the empty string if none or
    an empty one was given) and the initial state passed. *)
Theorem stringify_carries_hints :
  forall (DiffEntry : Type) (C : Collaborators DiffEntry)
         (base remote : JValue) (diff : option (list DiffEntry))
         (collapsible : option bool) (header : option string)
         (collapsed : option bool) (key : option string)
         (model : StringDiffModel.t),
    OutputDiffModel.stringify
      (OutputDiffModel.new base remote diff collapsible header collapsed) key
    = Ok model ->
    match collapsible with
    | Some true =>
        StringDiffModel.collapsible model = true
        /\ StringDiffModel.collapsibleHeader model
           = Some (match header with Some h => h | None => "" end)
        /\ StringDiffModel.startCollapsed model = collapsed
    | _ =>
        StringDiffModel.collapsible model = false
        /\ StringDiffModel.collapsibleHeader model = None
        /\ StringDiffModel.startCollapsed model = None
    end.
Proof.
  intros DiffEntry C base remote diff collapsible header collapsed key model.
  rewrite stringify_unfold.
  destruct (factoryModel _ key) as [model0|msg]; cbn [bind]; [|discriminate].
  destruct (match givenKey key with
            | Some k => OutputDiffModel.innerMimeType _ k
            | None => Ok "application/json"
            end) as [mt|msg]; cbn [bind]; [|discriminate].
  intros [= <-]. unfold withHints, OutputDiffModel.new. simpl.
  destruct collapsible as [[|]|]; auto.
Qed.

Lemma stringify_carries_hints_witness :
  exists model,
    OutputDiffModel.stringify
      (OutputDiffModel.new (resultOutput "a") (resultOutput "a") None
         (Some true) None (Some false)) None = Ok model
    /\ StringDiffModel.collapsible model = true
    /\ StringDiffModel.collapsibleHeader model = Some ""
    /\ StringDiffModel.startCollapsed model = Some false.
Proof.
  eexists. split; [reflexivity|].
  exact (stringify_carries_hints Sample.DiffEntry Sample.collaborators
           (resultOutput "a") (resultOutput "a") None (Some true) None
           (Some false) None _ eq_refl).
Defined.

(** X19: [innerMimeType] and [hasMimeType] read the type of the output from
    the base, or from the remote when the base is falsy.  With a falsy base
    and a null or undefined remote both throw a TypeError, and this is the
    only way for [innerMimeType] to throw one: its other failure is the
    unknown key. *)
Theorem mimetype_lookups_need_an_output :
  forall (DiffEntry : Type) (C : Collaborators DiffEntry)
         (m : OutputDiffModel.t DiffEntry) (key mimetype : string),
    let noOutput :=
      falsy (OutputDiffModel.base m) = true
      /\ (OutputDiffModel.remote m = JNull
          \/ OutputDiffModel.remote m = JUndefined) in
    (noOutput ->
     OutputDiffModel.innerMimeType m key = Throw "TypeError"
     /\ hasMimeType m mimetype = Throw "TypeError")
    /\ (OutputDiffModel.innerMimeType m key = Throw "TypeError" -> noOutput).
Proof.
  intros DiffEntry C m key mimetype noOutput. subst noOutput.
  unfold OutputDiffModel.innerMimeType, hasMimeType,
    OutputDiffModel.outputType.
  split.
  - intros [Hb [Hr|Hr]]; rewrite Hb, Hr; split; reflexivity.
  - destruct (falsy (OutputDiffModel.base m)) eqn:Hb.
    + destruct (OutputDiffModel.remote m) eqn:Hr; cbn [property bind];
        auto.
      all: intros Hthrow; exfalso; revert Hthrow.
      all: match goal with
           | |- context [if ?c then _ else _] => destruct c
           end; [discriminate|].
      all: match goal with
           | |- context [if ?c then _ else _] => destruct c
           end; discriminate.
    + assert (Hp : exists t, property (OutputDiffModel.base m) "output_type"
                             = Ok t).
      { destruct (OutputDiffModel.base m); simpl in Hb; try discriminate;
          eexists; reflexivity. }
      destruct Hp as [t ->]. cbn [bind].
      intros Hthrow; exfalso; revert Hthrow.
      destruct (isString t "stream" && String.eqb key "text");
        [discriminate|].
      destruct ((isString t "execute_result" || isString t "display_data")
                && prefix "data." key); discriminate.
Qed.

Lemma mimetype_lookups_need_an_output_witness :
  OutputDiffModel.innerMimeType
    (OutputDiffModel.new (H := Sample.collaborators) JNull JNull None
       None None None) "text" = Throw "TypeError".
Proof.
  apply (mimetype_lookups_need_an_output Sample.DiffEntry
           Sample.collaborators
           (OutputDiffModel.new (H := Sample.collaborators) JNull JNull None
              None None None) "text" "text/plain").
  split; [reflexivity|left; reflexivity].
Defined.
